(** * ida_kernelcache/ida_utilities.py: the function-boundary repair heuristic

    A shallow embedding of [_fix_unrecognized_function_insns],
    [_convert_address_to_function], [is_function_start] and [force_function].

    These functions are clients of IDA's analysis database.  The database
    is not part of the file, so it is an [Engine]: a state type with the API
    entry points the code calls.  Getters read the state; every other entry
    point returns its answer together with the next state, so an engine can
    answer any sequence of calls in any way it likes.  The code is run in a
    [World]: the engine state plus the chronological log of the calls that
    were allowed to change it. *)

From Stdlib Require Import ZArith List Bool Lia.
From Stdlib.Strings Require Import Byte.
Import ListNotations.
Local Open Scope Z_scope.

(** ** The analysis database, as the code sees it *)

Record Engine : Type := {
  St : Type;
  (** [idc.BADADDR] *)
  BADADDR : Z;
  (** [idc.get_func_attr(ea, idc.FUNCATTR_START)] *)
  get_func_attr_start : St -> Z -> Z;
  (** [idc.first_func_chunk(ea)] *)
  first_func_chunk : St -> Z -> Z;
  (** [ida_bytes.get_item_end(ea)] *)
  get_item_end : St -> Z -> Z;
  (** [list(idautils.Chunks(ea))]: the (start, end) pairs *)
  Chunks : St -> Z -> list (Z * Z);
  (** [idaapi.get_func(ea)]: [Some entry] for a func_t, [None] for None *)
  get_func : St -> Z -> option Z;
  (** [idc.find_func_end(ea)]; it runs the engine's bounds search *)
  find_func_end : St -> Z -> Z * St;
  (** [fn = ida_funcs.func_t(ea); ida_funcs.find_func_bounds(fn, FIND_FUNC_DEFINE)]
      and then [fn.end_ea]; the status code is dropped by the caller *)
  find_func_bounds : St -> Z -> Z * St;
  (** [ida_bytes.del_items(ea, ida_bytes.DELIT_EXPAND)]; result dropped *)
  del_items : St -> Z -> St;
  (** [idc.create_insn(ea)]: the instruction length, 0 on failure *)
  create_insn : St -> Z -> Z * St;
  (** [idc.remove_fchunk(funcea, tailea)]: an int, 0 on failure *)
  remove_fchunk : St -> Z -> Z -> Z * St;
  (** [ida_funcs.add_func(ea)] *)
  add_func : St -> Z -> bool * St;
  (** [ida_funcs.del_func(ea)] *)
  del_func : St -> Z -> bool * St
}.

(** The calls that go through a state-changing entry point. *)
Inductive Call : Type :=
| FindFuncEnd (ea : Z)
| FindFuncBounds (ea : Z)
| DelItems (ea : Z)
| CreateInsn (ea : Z)
| RemoveFchunk (funcea tailea : Z)
| AddFunc (ea : Z)
| DelFunc (ea : Z).



Section Repair.

Variable E : Engine.

Record World : Type := mkWorld { db : St E; log : list Call }.

(** ** A state monad that can run out of fuel

    [None] is used for one thing only: the [while] loop of
    [_fix_unrecognized_function_insns] has used up its fuel. *)

Definition M (A : Type) : Type := World -> option (A * World).

Definition ret {A} (a : A) : M A := fun w => Some (a, w).

Definition bind {A B} (m : M A) (k : A -> M B) : M B :=
  fun w => match m w with
           | Some (a, w') => k a w'
           | None => None
           end.

Definition out_of_fuel {A} : M A := fun _ => None.

Notation "x <- m ;; k" := (bind m (fun x => k))
  (at level 61, m at next level, right associativity).
Notation "m ;;; k" := (bind m (fun _ => k))
  (at level 61, right associativity).

(** A getter reads the database. *)
Definition query {A} (f : St E -> A) : M A := fun w => Some (f (db w), w).

(** A call is logged and replaces the database by the state it returns. *)
Definition call {A} (c : Call) (f : St E -> A * St E) : M A :=
  fun w => let (a, s) := f (db w) in Some (a, mkWorld s (log w ++ [c])).

Definition call_find_func_end (ea : Z) : M Z :=
  call (FindFuncEnd ea) (fun s => find_func_end E s ea).
Definition call_find_func_bounds (ea : Z) : M Z :=
  call (FindFuncBounds ea) (fun s => find_func_bounds E s ea).
Definition call_del_items (ea : Z) : M unit :=
  call (DelItems ea) (fun s => (tt, del_items E s ea)).
Definition call_create_insn (ea : Z) : M Z :=
  call (CreateInsn ea) (fun s => create_insn E s ea).
Definition call_remove_fchunk (funcea tailea : Z) : M Z :=
  call (RemoveFchunk funcea tailea) (fun s => remove_fchunk E s funcea tailea).
Definition call_add_func (ea : Z) : M bool :=
  call (AddFunc ea) (fun s => add_func E s ea).
Definition call_del_func (ea : Z) : M bool :=
  call (DelFunc ea) (fun s => del_func E s ea).

(** ** The code *)

(** [_log(level, fmt, ...)] prints and returns nothing. *)
Definition _log : M unit := ret tt.

(** [_fix_unrecognized_function_insns(func)].  One unit of fuel pays for one
    evaluation of the [while] condition. *)
Fixpoint _fix_unrecognized_function_insns (fuel : nat) (func : Z) : M bool :=
  match fuel with
  | O => out_of_fuel
  | S fuel' =>
      fe <- call_find_func_end func ;;
      if fe =? BADADDR E then
        unrecognized_insn <- call_find_func_bounds func ;;
        if unrecognized_insn =? 0 then
          _log ;;; ret false
        else
          unrecognized_insn_end <- query (fun s => get_item_end E s unrecognized_insn) ;;
          _log ;;;
          call_del_items unrecognized_insn ;;;
          r <- call_create_insn unrecognized_insn ;;
          if r =? 0 then
            _log ;;; ret false
          else
            _fix_unrecognized_function_insns fuel' func
      else
        ret true
  end.

(** [for i in range(n): if not idc.remove_fchunk(func, func): break] *)
Fixpoint remove_fchunk_loop (n : nat) (func : Z) : M unit :=
  match n with
  | O => ret tt
  | S n' =>
      r <- call_remove_fchunk func func ;;
      if r =? 0 then ret tt else remove_fchunk_loop n' func
  end.

(** The first [if]/[else] of [_convert_address_to_function]: recovery when
    no function end is found, chunk removal otherwise.  The result of
    [_fix_unrecognized_function_insns] is dropped, as in the source. *)
Definition fix_or_detach (fuel : nat) (func : Z) : M unit :=
  fe <- call_find_func_end func ;;
  if fe =? BADADDR E then
    _fix_unrecognized_function_insns fuel func ;;; ret tt
  else
    remove_fchunk_loop 1024 func.

(** [all(idaapi.get_func(start) for start, end in chunks)] *)
Definition all_chunks_owned (s : St E) (chunks : list (Z * Z)) : bool :=
  forallb (fun c => match get_func E s (fst c) with
                    | Some _ => true
                    | None => false
                    end) chunks.

(** The three nested [if]s after a successful [del_func(orig)]: [true] is
    the [return True] in the innermost one, [false] is falling out. *)
Definition recreate_both (func orig : Z) (chunks : list (Z * Z)) : M bool :=
  a1 <- call_add_func func ;;
  if a1 then
    a2 <- call_add_func orig ;;
    if a2 then query (fun s => all_chunks_owned s chunks)
    else ret false
  else ret false.

(** [for start, _ in chunks: ida_funcs.del_func(start)] *)
Fixpoint undo_damage (chunks : list (Z * Z)) : M unit :=
  match chunks with
  | [] => ret tt
  | (start, _) :: rest => call_del_func start ;;; undo_damage rest
  end.

(** The first [if orig != idc.BADADDR:] block: [true] is [return True]. *)
Definition delete_and_recreate (func orig : Z) : M bool :=
  chunks <- query (fun s => Chunks E s orig) ;;
  d <- call_del_func orig ;;
  if d then
    done <- recreate_both func orig chunks ;;
    if done then ret true
    else undo_damage chunks ;;; ret false
  else ret false.

(** The second [if orig != idc.BADADDR:] block and the [return False]. *)
Definition restore_original (orig : Z) : M bool :=
  (if negb (orig =? BADADDR E) then
     _log ;;; call_add_func orig ;;; ret tt
   else ret tt) ;;;
  ret false.

(** Everything after [# Now try making a function.] *)
Definition make_function (func orig : Z) : M bool :=
  ok <- call_add_func func ;;
  if ok then ret true
  else
    done <- (if negb (orig =? BADADDR E) then delete_and_recreate func orig
             else ret false) ;;
    if done then ret true
    else restore_original orig.

Definition _convert_address_to_function (fuel : nat) (func : Z) : M bool :=
  orig <- query (fun s => first_func_chunk E s func) ;;
  fix_or_detach fuel func ;;;
  make_function func orig.

Definition is_function_start (s : St E) (ea : Z) : bool :=
  get_func_attr_start E s ea =? ea.

Definition force_function (fuel : nat) (addr : Z) : M bool :=
  st <- query (fun s => is_function_start s addr) ;;
  if st then ret true
  else _convert_address_to_function fuel addr.

End Repair.

Arguments mkWorld {E} _ _.
Arguments db {E} _.
Arguments log {E} _.

(** ** Ownership of addresses *)

Section Ownership.

Variable E : Engine.

(** An address is owned when [get_func] finds a function for it. *)
Definition owned (s : St E) (x : Z) : bool :=
  match get_func E s x with Some _ => true | None => false end.

(** Owned before, owned by no function after. *)
Definition newly_unowned (before after : St E) (x : Z) : bool :=
  owned before x && negb (owned after x).

(** [x] lies in one of the [start, end) ranges. *)
Definition in_chunks (chunks : list (Z * Z)) (x : Z) : bool :=
  existsb (fun c => (fst c <=? x) && (x <? snd c)) chunks.

Definition count_if (p : Z -> bool) (addresses : list Z) : nat :=
  length (filter p addresses).

(** What a function table that keeps its books does.  Functions are named by
    their entry address.  A failed call changes no owner; deleting a
    function frees its addresses and nothing else; creating one takes only
    free addresses; removing a chunk frees addresses of the function it is
    removed from; the item-level calls leave the function table alone. *)
Record Honest : Prop := {
  honest_attr : forall s a,
    get_func_attr_start E s a =
    match get_func E s a with Some e => e | None => BADADDR E end;
  honest_first : forall s a,
    first_func_chunk E s a =
    match get_func E s a with Some e => e | None => BADADDR E end;
  honest_entry : forall s x g,
    get_func E s x = Some g -> get_func E s g = Some g /\ g <> BADADDR E;
  honest_chunks : forall s o c,
    In c (Chunks E s o) -> get_func E s (fst c) = get_func E s o;
  honest_cover : forall s x o,
    get_func E s x = Some o -> in_chunks (Chunks E s o) x = true;
  honest_find_func_end : forall s a x,
    get_func E (snd (find_func_end E s a)) x = get_func E s x;
  honest_find_func_bounds : forall s a x,
    get_func E (snd (find_func_bounds E s a)) x = get_func E s x;
  honest_del_items : forall s a x,
    get_func E (del_items E s a) x = get_func E s x;
  honest_create_insn : forall s a x,
    get_func E (snd (create_insn E s a)) x = get_func E s x;
  honest_remove_fchunk : forall s f t x,
    get_func E (snd (remove_fchunk E s f t)) x = get_func E s x \/
    (get_func E s x = get_func E s t /\
     get_func E (snd (remove_fchunk E s f t)) x = None);
  honest_add_fail : forall s a x,
    fst (add_func E s a) = false ->
    get_func E (snd (add_func E s a)) x = get_func E s x;
  honest_add_ok : forall s a,
    fst (add_func E s a) = true ->
    get_func E (snd (add_func E s a)) a = Some a /\
    forall x,
      get_func E (snd (add_func E s a)) x = get_func E s x \/
      (get_func E s x = None /\ get_func E (snd (add_func E s a)) x = Some a);
  honest_del_fail : forall s a x,
    fst (del_func E s a) = false ->
    get_func E (snd (del_func E s a)) x = get_func E s x;
  honest_del_ok : forall s a x,
    fst (del_func E s a) = true ->
    (get_func E s x = get_func E s a ->
     get_func E (snd (del_func E s a)) x = None) /\
    (get_func E s x <> get_func E s a ->
     get_func E (snd (del_func E s a)) x = get_func E s x)
}.

End Ownership.

Arguments owned {E} _ _.
Arguments newly_unowned {E} _ _ _.

(** ** Test engines *)

Definition BADADDR64 : Z := 2 ^ 64 - 1.

Definition in_range (lo hi x : Z) : bool := (lo <=? x) && (x <? hi).

(** *** An engine that gives the same answers every time *)

Record Answers : Type := {
  ans_attr_start : Z;
  ans_first_chunk : Z;
  ans_chunks : list (Z * Z);
  ans_get_func : option Z;
  ans_find_func_end : Z;
  ans_bounds_end_ea : Z;
  ans_create_insn : Z;
  ans_remove_fchunk : Z;
  ans_add_func : bool;
  ans_del_func : bool
}.

Definition ConstDB (r : Answers) : Engine := {|
  St := unit;
  BADADDR := BADADDR64;
  get_func_attr_start := fun _ _ => ans_attr_start r;
  first_func_chunk := fun _ _ => ans_first_chunk r;
  get_item_end := fun _ ea => ea + 4;
  Chunks := fun _ _ => ans_chunks r;
  get_func := fun _ _ => ans_get_func r;
  find_func_end := fun s _ => (ans_find_func_end r, s);
  find_func_bounds := fun s _ => (ans_bounds_end_ea r, s);
  del_items := fun s _ => s;
  create_insn := fun s _ => (ans_create_insn r, s);
  remove_fchunk := fun s _ _ => (ans_remove_fchunk r, s);
  add_func := fun s _ => (ans_add_func r, s);
  del_func := fun s _ => (ans_del_func r, s)
|}.

(** No function end is ever found, the bounds search always stops at the
    item at 0x1008, and that item can always be undefined and made an
    instruction again. *)
Definition never_resolved : Answers := {|
  ans_attr_start := BADADDR64;
  ans_first_chunk := BADADDR64;
  ans_chunks := [];
  ans_get_func := None;
  ans_find_func_end := BADADDR64;
  ans_bounds_end_ea := 4104;
  ans_create_insn := 4;
  ans_remove_fchunk := 0;
  ans_add_func := false;
  ans_del_func := false
|}.

(** No function end is found and the bounds search reports no item
    (end_ea 0), yet the engine accepts a function wherever one is asked. *)
Definition no_item_but_creates : Answers := {|
  ans_attr_start := BADADDR64;
  ans_first_chunk := BADADDR64;
  ans_chunks := [];
  ans_get_func := None;
  ans_find_func_end := BADADDR64;
  ans_bounds_end_ea := 0;
  ans_create_insn := 0;
  ans_remove_fchunk := 0;
  ans_add_func := true;
  ans_del_func := false
|}.

(** The chunk at the address is always reported as still there. *)
Definition chunk_always_present : Answers := {|
  ans_attr_start := BADADDR64;
  ans_first_chunk := BADADDR64;
  ans_chunks := [];
  ans_get_func := None;
  ans_find_func_end := 4136;
  ans_bounds_end_ea := 4136;
  ans_create_insn := 4;
  ans_remove_fchunk := 1;
  ans_add_func := false;
  ans_del_func := false
|}.

(** *** A small function table that keeps its books

    Two places can hold a function: 100 and 105.  A function created at 100
    runs to 110, or to 105 when a function at 105 is already there; a
    function created at 105 runs to 110.  Functions have one chunk, so no
    chunk can be removed.  [frozen] makes the engine refuse to create a
    function at 100. *)

Inductive layout : Type := Empty | A_long | A_short | B_only | A_short_B.

Record mini : Type := mkMini { lay : layout; frozen : bool }.

Definition mini_owner (l : layout) (x : Z) : option Z :=
  match l with
  | Empty => None
  | A_long => if in_range 100 110 x then Some 100 else None
  | A_short => if in_range 100 105 x then Some 100 else None
  | B_only => if in_range 105 110 x then Some 105 else None
  | A_short_B =>
      if in_range 100 105 x then Some 100
      else if in_range 105 110 x then Some 105 else None
  end.

Definition mini_entry (l : layout) (x : Z) : Z :=
  match mini_owner l x with Some e => e | None => BADADDR64 end.

Definition mini_chunks (l : layout) (o : Z) : list (Z * Z) :=
  match l with
  | Empty => []
  | A_long => if in_range 100 110 o then [(100, 110)] else []
  | A_short => if in_range 100 105 o then [(100, 105)] else []
  | B_only => if in_range 105 110 o then [(105, 110)] else []
  | A_short_B =>
      if in_range 100 105 o then [(100, 105)]
      else if in_range 105 110 o then [(105, 110)] else []
  end.

Definition mini_add (s : mini) (a : Z) : bool * mini :=
  if (a =? 100) && negb (frozen s) then
    match lay s with
    | Empty => (true, mkMini A_long (frozen s))
    | B_only => (true, mkMini A_short_B (frozen s))
    | _ => (false, s)
    end
  else if a =? 105 then
    match lay s with
    | Empty => (true, mkMini B_only (frozen s))
    | A_short => (true, mkMini A_short_B (frozen s))
    | _ => (false, s)
    end
  else (false, s).

Definition mini_del (s : mini) (a : Z) : bool * mini :=
  match mini_owner (lay s) a with
  | None => (false, s)
  | Some e =>
      if e =? 100 then
        match lay s with
        | A_short_B => (true, mkMini B_only (frozen s))
        | _ => (true, mkMini Empty (frozen s))
        end
      else
        match lay s with
        | A_short_B => (true, mkMini A_short (frozen s))
        | _ => (true, mkMini Empty (frozen s))
        end
  end.

Definition MiniDB : Engine := {|
  St := mini;
  BADADDR := BADADDR64;
  get_func_attr_start := fun s a => mini_entry (lay s) a;
  first_func_chunk := fun s a => mini_entry (lay s) a;
  get_item_end := fun _ ea => ea + 1;
  Chunks := fun s o => mini_chunks (lay s) o;
  get_func := fun s a => mini_owner (lay s) a;
  find_func_end := fun s a => (if in_range 100 110 a then 110 else BADADDR64, s);
  find_func_bounds := fun s _ => (0, s);
  del_items := fun s _ => s;
  create_insn := fun s _ => (0, s);
  remove_fchunk := fun s _ _ => (0, s);
  add_func := mini_add;
  del_func := mini_del
|}.

(** *** A function table with a tail chunk that two functions share

    IDA lets a chunk pass from one function to another by itself (the
    comment on the removal loop says so).  Here F has its entry chunk
    [100, 110), H has [300, 400), and both have the tail [200, 204).  [get_func] on the tail answers F while F exists and H
    otherwise.  [del_func] deletes the function that owns the address.  A
    function can be created at 100 and at 300 only. *)

Record shared : Type := mkShared { hasF : bool; hasH : bool }.

Definition shared_owner (s : shared) (x : Z) : option Z :=
  if hasF s && (in_range 100 110 x || in_range 200 204 x) then Some 100
  else if hasH s && (in_range 300 400 x || in_range 200 204 x) then Some 300
  else None.

Definition shared_entry (s : shared) (x : Z) : Z :=
  match shared_owner s x with Some e => e | None => BADADDR64 end.

Definition shared_chunks (s : shared) (o : Z) : list (Z * Z) :=
  match shared_owner s o with
  | Some e => if e =? 100 then [(100, 110); (200, 204)]
              else [(300, 400); (200, 204)]
  | None => []
  end.

Definition shared_add (s : shared) (a : Z) : bool * shared :=
  match shared_owner s a with
  | Some _ => (false, s)
  | None =>
      if a =? 100 then (true, mkShared true (hasH s))
      else if a =? 300 then (true, mkShared (hasF s) true)
      else (false, s)
  end.

Definition shared_del (s : shared) (a : Z) : bool * shared :=
  match shared_owner s a with
  | Some e => if e =? 100 then (true, mkShared false (hasH s))
              else (true, mkShared (hasF s) false)
  | None => (false, s)
  end.

Definition SharedTailDB : Engine := {|
  St := shared;
  BADADDR := BADADDR64;
  get_func_attr_start := shared_entry;
  first_func_chunk := shared_entry;
  get_item_end := fun _ ea => ea + 1;
  Chunks := shared_chunks;
  get_func := shared_owner;
  find_func_end := fun s a =>
    (match shared_owner s a with
     | Some e => if e =? 100 then 110 else 400
     | None => BADADDR64
     end, s);
  find_func_bounds := fun s _ => (0, s);
  del_items := fun s _ => s;
  create_insn := fun s _ => (0, s);
  remove_fchunk := fun s _ _ => (0, s);
  add_func := shared_add;
  del_func := shared_del
|}.

(** The addresses 0 .. 511, which hold everything the test engines know. *)
Definition low_addresses : list Z := map Z.of_nat (seq 0 512).

(** ** Vocabulary for the statements *)

Section Outcomes.

Variable E : Engine.

(** The state and result of the recovery loop when it stops: it answers
    [true] right after a bounds query that found an end, and [false] right
    after a bounds search that reported item 0 or a failed [create_insn]. *)
Definition recovery_exit (func : Z) (b : bool) (s' : St E) : Prop :=
  exists s : St E,
    let s1 := snd (find_func_end E s func) in
    let u := fst (find_func_bounds E s1 func) in
    let s2 := snd (find_func_bounds E s1 func) in
    let s3 := del_items E s2 u in
    (b = true /\ fst (find_func_end E s func) <> BADADDR E /\ s' = s1) \/
    (b = false /\ fst (find_func_end E s func) = BADADDR E /\
     ((u = 0 /\ s' = s2) \/
      (u <> 0 /\ fst (create_insn E s3 u) = 0 /\
       s' = snd (create_insn E s3 u)))).

(** The calls of the recovery loop: never a chunk removal, never a function
    creation or deletion. *)
Definition item_call (c : Call) : bool :=
  match c with
  | FindFuncEnd _ | FindFuncBounds _ | DelItems _ | CreateInsn _ => true
  | _ => false
  end.

(** The database after [for start, _ in chunks: del_func(start)]: every
    deletion is made on the state the previous one left, whatever it
    answered. *)
Definition undo_state (s : St E) (chunks : list (Z * Z)) : St E :=
  fold_left (fun s c => snd (del_func E s (fst c))) chunks s.

Definition undo_calls (chunks : list (Z * Z)) : list Call :=
  map (fun c => DelFunc (fst c)) chunks.

(** The world in which [_fix_unrecognized_function_insns] starts when
    [_convert_address_to_function] calls it. *)
Definition after_find_func_end (func : Z) (w : World E) : World E :=
  mkWorld (snd (find_func_end E (db w) func)) (log w ++ [FindFuncEnd func]).

(** A computation only ever adds calls at the end of the log. *)
Definition appends {A} (m : M E A) : Prop :=
  forall w a w', m w = Some (a, w') -> exists calls, log w' = log w ++ calls.

(** A computation keeps a property of the database. *)
Definition keeps (P : St E -> Prop) {A} (m : M E A) : Prop :=
  forall w a w', m w = Some (a, w') -> P (db w) -> P (db w').


(** *** What a conversion of [func] may touch

    [s0] is the database on entry and [orig] the first chunk captured
    there.  An address that was free or belonged to [orig] may end up free,
    in [orig] or in [func]; any other address keeps its owner. *)

Variable s0 : St E.
Variables func orig : Z.

Definition free_or_orig (x : Z) : Prop :=
  get_func E s0 x = None \/ get_func E s0 x = Some orig.

Definition ours (o : option Z) : Prop :=
  o = None \/ o = Some orig \/ o = Some func.

Definition touches_only_ours (s : St E) : Prop :=
  forall x,
    get_func E s x = get_func E s0 x \/
    (free_or_orig x /\ ours (get_func E s x)).

(** The chunk starts of the snapshot are free, in [orig] or in [func]. *)
Definition starts_ours (chunks : list (Z * Z)) (s : St E) : Prop :=
  forall c, In c chunks -> ours (get_func E s (fst c)).

End Outcomes.

Arguments appends {E A} _.
Arguments keeps {E} _ {A} _.

(** * Address ranges, words and instructions

    The iterators of the file.  A generator is the list of the values it
    yields followed by the way it ends; the functions below only read the
    database, so nothing is lost by listing the yields at once.  A
    consumer that breaks out of its [for] loop drops the ending of the
    generator it was reading. *)

Inductive exn : Type :=
| ValueError
| AlignmentError (address : Z)
| UnicodeDecodeError
(** [next()] met the end of its iterator inside a generator body *)
| StopIterationInGenerator.

(** What a call does: it returns or it raises. *)
Inductive outcome (A : Type) : Type :=
| Returns (a : A)
| Raises (e : exn).

Arguments Returns {A} _.
Arguments Raises {A} _.

(** How a generator ends: its body returns or raises. *)
Inductive ending : Type :=
| Done
| Raised (e : exn).

Definition gen (A : Type) : Type := (list A * ending)%type.

(** [start, start + step, ...]: [n] addresses. *)
Definition steps (start step : Z) (n : nat) : list Z :=
  map (fun i => start + Z.of_nat i * step) (seq 0 n).

(** The number of whole elements of size [step] in [start, end). *)
Definition whole_elements (start end_ step : Z) : nat :=
  Z.to_nat ((end_ - start) / step).

(** [_initialize()]: the word size of the platform. *)
Definition _initialize_WORD_SIZE (is_64bit is_32bit : bool) : Z :=
  if is_64bit then 8 else if is_32bit then 4 else 2.

(** ** [_addresses] *)

(** The [while addr < end_full] loop: the addresses yielded and the value
    of [addr] when the loop is left.  One unit of fuel pays for one
    evaluation of the condition. *)
Fixpoint _addresses_while (fuel : nat) (addr end_full step : Z)
  : option (list Z * Z) :=
  match fuel with
  | O => None
  | S fuel' =>
      if addr <? end_full then
        match _addresses_while fuel' (addr + step) end_full step with
        | Some (ys, a) => Some (addr :: ys, a)
        | None => None
        end
      else Some ([], addr)
  end.

Definition _addresses (fuel : nat) (start end_ step : Z)
           (partial aligned : bool) : option (gen Z) :=
  let end_full := end_ - step + 1 in
  match _addresses_while fuel start end_full step with
  | None => None
  | Some (ys, addr) =>
      if negb (addr =? end_) then
        if aligned then Some (ys, Raised (AlignmentError end_))
        else if (addr <? end_) && partial then Some (ys ++ [addr], Done)
        else Some (ys, Done)
      else Some (ys, Done)
  end.

(** ** Reading the image *)

(** The getters of the database the iterators use.  [getseg] is the
    truth value of [idaapi.getseg(ea)]. *)
Record Image : Type := {
  is_loaded : Z -> bool;
  getseg : Z -> bool;
  get_wide_byte : Z -> Z;
  get_wide_word : Z -> Z;
  get_wide_dword : Z -> Z;
  get_qword : Z -> Z
}.

Section Words.

Variable I : Image.

(** [WORD_SIZE], as [_initialize()] has set it. *)
Variable WORD_SIZE : Z.

(** [is_mapped(ea, size, value)], as a truth value. *)
Definition is_mapped (ea size : Z) (value : bool) : outcome bool :=
  if size <? 1 then Raises ValueError
  else if value then
    Returns (is_loaded I ea && ((size =? 1) || is_loaded I (ea + size - 1)))
  else
    Returns (getseg I ea && ((size =? 1) || getseg I (ea + size - 1))).

(** The [for addr in addresses] loop of [_mapped_addresses]; when the loop
    runs to the end of [addresses], the generator ends as [addresses]
    does. *)
Fixpoint _mapped_addresses_for (step : Z) (partial allow_unmapped : bool)
         (addresses : list Z) (inner : ending) : gen Z :=
  match addresses with
  | [] => ([], inner)
  | addr :: rest =>
      match is_mapped addr 1 true with
      | Raises e => ([], Raised e)
      | Returns start_is_mapped =>
          match is_mapped (addr + step - 1) 1 true with
          | Raises e => ([], Raised e)
          | Returns end_is_mapped =>
              let fully_mapped := start_is_mapped && end_is_mapped in
              let allowed_partial :=
                partial && (start_is_mapped || end_is_mapped) in
              if fully_mapped || allowed_partial then
                let (ys, e) :=
                  _mapped_addresses_for step partial allow_unmapped rest inner
                in (addr :: ys, e)
              else if negb allow_unmapped then ([], Done)
              else _mapped_addresses_for step partial allow_unmapped rest inner
          end
      end
  end.

Definition _mapped_addresses (addresses : gen Z) (step : Z)
           (partial allow_unmapped : bool) : gen Z :=
  _mapped_addresses_for step partial allow_unmapped
    (fst addresses) (snd addresses).

(** [Addresses(start, end, step, length, partial, aligned, unmapped,
    allow_unmapped)]: [None] for [end] and [length] is Python's None.  The
    ValueErrors are raised by the call, not by the generator. *)
Definition Addresses (fuel : nat) (start : Z) (end_ : option Z) (step : Z)
           (length : option Z) (partial aligned unmapped allow_unmapped : bool)
  : option (outcome (gen Z)) :=
  if step <? 1 then Some (Raises ValueError)
  else
    let checked_end : outcome (option Z) :=
      match length with
      | Some len =>
          let end_addr := start + len * step in
          match end_ with
          | Some e =>
              if negb (e =? end_addr) then Raises ValueError
              else Returns (Some end_addr)
          | None => Returns (Some end_addr)
          end
      | None => Returns end_
      end in
    match checked_end with
    | Raises e => Some (Raises e)
    | Returns None => Some (Raises ValueError)
    | Returns (Some e) =>
        match _addresses fuel start e step partial aligned with
        | None => None
        | Some addresses =>
            if unmapped then Some (Returns addresses)
            else Some (Returns (_mapped_addresses addresses step partial
                                  allow_unmapped))
        end
    end.

(** [read_word(ea, wordsize)]: [Returns None] is Python's None. *)
Definition read_word (ea wordsize : Z) : outcome (option Z) :=
  match is_mapped ea wordsize true with
  | Raises e => Raises e
  | Returns mapped =>
      if negb mapped then Returns None
      else if wordsize =? 1 then Returns (Some (get_wide_byte I ea))
      else if wordsize =? 2 then Returns (Some (get_wide_word I ea))
      else if wordsize =? 4 then Returns (Some (get_wide_dword I ea))
      else if wordsize =? 8 then Returns (Some (get_qword I ea))
      else Raises ValueError
  end.

(** What [ReadWords] yields: the word, or the pair [(word, addr)]. *)
Definition word_item (addresses : bool) (word addr : Z) : Z + Z * Z :=
  if addresses then inr (word, addr) else inl word.

(** The [for addr in Addresses(...)] loop of [ReadWords]. *)
Fixpoint ReadWords_for (wordsize : Z) (addresses : bool)
         (addrs : list Z) (inner : ending) : gen (Z + Z * Z) :=
  match addrs with
  | [] => ([], inner)
  | addr :: rest =>
      match read_word addr wordsize with
      | Raises e => ([], Raised e)
      | Returns None => ([], Done)
      | Returns (Some word) =>
          let (ys, e) := ReadWords_for wordsize addresses rest inner in
          (word_item addresses word addr :: ys, e)
      end
  end.

(** [ReadWords(start, end, step, wordsize, addresses)].  The body runs when
    the generator is first asked for a value, so a ValueError of
    [Addresses] ends the generator. *)
Definition ReadWords (fuel : nat) (start end_ step wordsize : Z)
           (addresses : bool) : option (gen (Z + Z * Z)) :=
  match Addresses fuel start (Some end_) step None false false true false with
  | None => None
  | Some (Raises e) => Some ([], Raised e)
  | Some (Returns (addrs, inner)) =>
      Some (ReadWords_for wordsize addresses addrs inner)
  end.

(** [deque.append] on a deque made with [maxlen]: the oldest items fall
    out at the left. *)
Definition deque_append {A} (maxlen : nat) (d : list A) (x : A) : list A :=
  skipn (List.length (d ++ [x]) - maxlen) (d ++ [x]).

(** The [for word in words] loop of [WindowWords].  A yielded window is the
    content of the deque at the time of the yield; the deque itself is one
    object, which the next round changes. *)
Fixpoint WindowWords_for {A} (maxlen : nat) (wordsize : Z) (words : list A)
         (inner : ending) (window : list A) (addr : Z) : gen (list A * Z) :=
  match words with
  | [] => ([], inner)
  | word :: rest =>
      let window' := deque_append maxlen window word in
      let addr' := addr + wordsize in
      let (ys, e) := WindowWords_for maxlen wordsize rest inner window' addr' in
      ((window', addr') :: ys, e)
  end.

(** [WindowWords(start, end, window_size, wordsize)].  [ReadWords] is
    called with its default [step], which is [WORD_SIZE].  [next(words)] is
    called [window_size] times; [deque(..., maxlen)] refuses a negative
    [maxlen] with a ValueError. *)
Definition WindowWords (fuel : nat) (start end_ window_size wordsize : Z)
  : option (gen (list (Z + Z * Z) * Z)) :=
  match ReadWords fuel start end_ WORD_SIZE wordsize false with
  | None => None
  | Some (words, inner) =>
      let k := Z.to_nat window_size in
      if (List.length words <? k)%nat then
        match inner with
        | Done => Some ([], Raised StopIterationInGenerator)
        | Raised e => Some ([], Raised e)
        end
      else if window_size <? 0 then Some ([], Raised ValueError)
      else
        let window := firstn k words in
        let (ys, e) :=
          WindowWords_for k wordsize (skipn k words) inner window start in
        Some ((window, start) :: ys, e)
  end.

End Words.

(** ** Instructions *)

Section Decoding.

(** An [insn_t] and its [size]; [idautils.DecodeInstruction(ea)]. *)
Variable Insn : Type.
Variable size : Insn -> Z.
Variable DecodeInstruction : Z -> option Insn.

(** [_instructions_by_range(start, end)]; one unit of fuel pays for one
    evaluation of [pc < end]. *)
Fixpoint _instructions_by_range (fuel : nat) (pc end_ : Z)
  : option (gen Insn) :=
  match fuel with
  | O => None
  | S fuel' =>
      if pc <? end_ then
        match DecodeInstruction pc with
        | None => Some ([], Done)
        | Some insn =>
            let next_pc := pc + size insn in
            match _instructions_by_range fuel' next_pc end_ with
            | Some (ys, e) => Some (insn :: ys, e)
            | None => None
            end
        end
      else Some ([], Done)
  end.

(** The [for i in range(count)] loop of [_instructions_by_count]. *)
Fixpoint _instructions_by_count_for (rounds : nat) (pc : Z) : gen Insn :=
  match rounds with
  | O => ([], Done)
  | S rounds' =>
      match DecodeInstruction pc with
      | None => ([], Done)
      | Some insn =>
          let (ys, e) := _instructions_by_count_for rounds' (pc + size insn) in
          (insn :: ys, e)
      end
  end.

Definition _instructions_by_count (pc count : Z) : gen Insn :=
  _instructions_by_count_for (Z.to_nat count) pc.

(** [Instructions(start, end, count)] *)
Definition Instructions (fuel : nat) (start : Z) (end_ count : option Z)
  : option (outcome (gen Insn)) :=
  match end_, count with
  | Some _, Some _ | None, None => Some (Raises ValueError)
  | Some e, None =>
      match _instructions_by_range fuel start e with
      | Some g => Some (Returns g)
      | None => None
      end
  | None, Some c => Some (Returns (_instructions_by_count start c))
  end.

(** The addresses at which [_instructions_by_count] decodes: each
    instruction starts where the one before it ends. *)
Fixpoint decode_addresses (rounds : nat) (pc : Z) : list Z :=
  match rounds with
  | O => []
  | S rounds' =>
      match DecodeInstruction pc with
      | None => []
      | Some insn => pc :: decode_addresses rounds' (pc + size insn)
      end
  end.

End Decoding.

(** ** C strings *)

Section CStrings.

(** A Python str, and [bytes.decode()] *)
Variable Str : Type.
Variable decode : list byte -> outcome Str.

(** [string.split(b'\0', 1)[0]] *)
Fixpoint before_nul (string : list byte) : list byte :=
  match string with
  | [] => []
  | b :: rest => if Byte.eqb b x00 then [] else b :: before_nul rest
  end.

Definition null_terminated (string : list byte) : outcome Str :=
  decode (before_nul string).

End CStrings.

(** ** Vocabulary for the iterators *)

(** The test of [_mapped_addresses]: first and last byte loaded, or one of
    them when [partial]. *)
Definition sufficiently_mapped (I : Image) (step : Z) (partial : bool)
           (addr : Z) : bool :=
  let first := is_loaded I addr in
  let last := is_loaded I (addr + step - 1) in
  (first && last) || (partial && (first || last)).

(** First and last byte of the word loaded. *)
Definition word_loaded (I : Image) (wordsize ea : Z) : bool :=
  is_loaded I ea && ((wordsize =? 1) || is_loaded I (ea + wordsize - 1)).

(** The getter [read_word] uses for a word size it knows. *)
Definition peek (I : Image) (wordsize ea : Z) : Z :=
  if wordsize =? 1 then get_wide_byte I ea
  else if wordsize =? 2 then get_wide_word I ea
  else if wordsize =? 4 then get_wide_dword I ea
  else get_qword I ea.

Definition known_wordsize (wordsize : Z) : Prop :=
  wordsize = 1 \/ wordsize = 2 \/ wordsize = 4 \/ wordsize = 8.

(** Where decoding stands after [rounds] instructions from [pc]. *)
Fixpoint pc_after {Insn : Type} (size : Insn -> Z)
         (DecodeInstruction : Z -> option Insn) (rounds : nat) (pc : Z) : Z :=
  match rounds with
  | O => pc
  | S rounds' =>
      match DecodeInstruction pc with
      | None => pc
      | Some insn => pc_after size DecodeInstruction rounds' (pc + size insn)
      end
  end.

(** ** A small image and a small decoder

    The bytes [100, 116) are loaded and the segment runs to 132; each
    getter gives a value that tells which getter it was.  The decoder knows
    four-byte instructions at 100, 104, 108 and 112, and names an
    instruction by its address. *)

Definition small_image : Image := {|
  is_loaded := in_range 100 116;
  getseg := in_range 100 132;
  get_wide_byte := fun a => a mod 256;
  get_wide_word := fun a => 1000 + a;
  get_wide_dword := fun a => 2000 + a;
  get_qword := fun a => 3000 + a
|}.

Definition small_decoder (a : Z) : option Z :=
  if in_range 100 116 a && (a mod 4 =? 0) then Some a else None.

Definition four_bytes (insn : Z) : Z := 4.

(** ** The calls a conversion may make *)

(** What [_convert_address_to_function(func)] may ask of the engine when
    the first chunk captured on entry is [orig]: bounds, chunk removal and
    creation at [func]; undefining and re-creating the item the bounds
    search reported; creation and deletion at [orig]; deletion at a chunk
    start the engine listed for [orig]. *)
Definition allowed_call (E : Engine) (func orig : Z) (c : Call) : Prop :=
  match c with
  | FindFuncEnd a | FindFuncBounds a => a = func
  | DelItems a | CreateInsn a => exists s, a = fst (find_func_bounds E s func)
  | RemoveFchunk f t => f = func /\ t = func
  | AddFunc a => a = func \/ a = orig
  | DelFunc a =>
      a = orig \/ exists s chunk, In chunk (Chunks E s orig) /\ a = fst chunk
  end.

(** A computation adds only calls with property [P] to the log. *)
Definition emits {E : Engine} {A} (P : Call -> Prop) (m : M E A) : Prop :=
  forall w a w',
    m w = Some (a, w') ->
    exists calls, log w' = log w ++ calls /\ Forall P calls.

(** ** An engine where undefining an item takes a function with it

    One function, [300, 310), and nothing at 200.  The bounds search from
    200 never finds an end and reports the item at 305; undefining that
    item destroys the function around it.  No instruction can be made and
    no function created. *)




(** * The repair code when a call into the engine may raise

    The same four functions, run against an engine whose entry points
    either answer or raise.  The code has no [try]: an exception raised by
    a call ends the function that made the call and is passed to its
    caller; the database is left as the call left it. *)

Module Raising.

Record Engine : Type := {
  St : Type;
  BADADDR : Z;
  get_func_attr_start : St -> Z -> outcome Z;
  first_func_chunk : St -> Z -> outcome Z;
  get_item_end : St -> Z -> outcome Z;
  Chunks : St -> Z -> outcome (list (Z * Z));
  get_func : St -> Z -> outcome (option Z);
  find_func_end : St -> Z -> outcome Z * St;
  find_func_bounds : St -> Z -> outcome Z * St;
  del_items : St -> Z -> outcome unit * St;
  create_insn : St -> Z -> outcome Z * St;
  remove_fchunk : St -> Z -> Z -> outcome Z * St;
  add_func : St -> Z -> outcome bool * St;
  del_func : St -> Z -> outcome bool * St
}.

(** Some entry point of the engine raises [e] for some state and
    arguments. *)
Definition engine_raises (E : Engine) (e : exn) : Prop :=
  exists (s : St E) (a : Z),
    get_func_attr_start E s a = Raises e \/
    first_func_chunk E s a = Raises e \/
    get_item_end E s a = Raises e \/
    Chunks E s a = Raises e \/
    get_func E s a = Raises e \/
    fst (find_func_end E s a) = Raises e \/
    fst (find_func_bounds E s a) = Raises e \/
    fst (del_items E s a) = Raises e \/
    fst (create_insn E s a) = Raises e \/
    (exists t, fst (remove_fchunk E s a t) = Raises e) \/
    fst (add_func E s a) = Raises e \/
    fst (del_func E s a) = Raises e.

Section Code.

Variable E : Engine.

Record World : Type := mkWorld { db : St E; log : list Call }.

(** [None]: the [while] loop has used up its fuel.  [Raises e]: the
    exception [e] is on its way to the caller. *)
Definition M (A : Type) : Type := World -> option (outcome A * World).

Definition ret {A} (a : A) : M A := fun w => Some (Returns a, w).

Definition bind {A B} (m : M A) (k : A -> M B) : M B :=
  fun w => match m w with
           | Some (Returns a, w') => k a w'
           | Some (Raises e, w') => Some (Raises e, w')
           | None => None
           end.

Definition out_of_fuel {A} : M A := fun _ => None.

Notation "x <- m ;; k" := (bind m (fun x => k))
  (at level 61, m at next level, right associativity).
Notation "m ;;; k" := (bind m (fun _ => k))
  (at level 61, right associativity).

Definition query {A} (f : St E -> outcome A) : M A :=
  fun w => Some (f (db w), w).

Definition call {A} (c : Call) (f : St E -> outcome A * St E) : M A :=
  fun w => let (r, s) := f (db w) in Some (r, mkWorld s (log w ++ [c])).

Definition call_find_func_end (ea : Z) : M Z :=
  call (FindFuncEnd ea) (fun s => find_func_end E s ea).
Definition call_find_func_bounds (ea : Z) : M Z :=
  call (FindFuncBounds ea) (fun s => find_func_bounds E s ea).
Definition call_del_items (ea : Z) : M unit :=
  call (DelItems ea) (fun s => del_items E s ea).
Definition call_create_insn (ea : Z) : M Z :=
  call (CreateInsn ea) (fun s => create_insn E s ea).
Definition call_remove_fchunk (funcea tailea : Z) : M Z :=
  call (RemoveFchunk funcea tailea) (fun s => remove_fchunk E s funcea tailea).
Definition call_add_func (ea : Z) : M bool :=
  call (AddFunc ea) (fun s => add_func E s ea).
Definition call_del_func (ea : Z) : M bool :=
  call (DelFunc ea) (fun s => del_func E s ea).

(** [_log(level, fmt, ...)] formats integers and prints. *)
Definition _log : M unit := ret tt.

Fixpoint _fix_unrecognized_function_insns (fuel : nat) (func : Z) : M bool :=
  match fuel with
  | O => out_of_fuel
  | S fuel' =>
      fe <- call_find_func_end func ;;
      if fe =? BADADDR E then
        unrecognized_insn <- call_find_func_bounds func ;;
        if unrecognized_insn =? 0 then
          _log ;;; ret false
        else
          unrecognized_insn_end <- query (fun s => get_item_end E s unrecognized_insn) ;;
          _log ;;;
          call_del_items unrecognized_insn ;;;
          r <- call_create_insn unrecognized_insn ;;
          if r =? 0 then
            _log ;;; ret false
          else
            _fix_unrecognized_function_insns fuel' func
      else
        ret true
  end.

Fixpoint remove_fchunk_loop (n : nat) (func : Z) : M unit :=
  match n with
  | O => ret tt
  | S n' =>
      r <- call_remove_fchunk func func ;;
      if r =? 0 then ret tt else remove_fchunk_loop n' func
  end.

Definition fix_or_detach (fuel : nat) (func : Z) : M unit :=
  fe <- call_find_func_end func ;;
  if fe =? BADADDR E then
    _fix_unrecognized_function_insns fuel func ;;; ret tt
  else
    remove_fchunk_loop 1024 func.

(** [all(idaapi.get_func(start) for start, end in chunks)]: one
    [get_func] per chunk, up to the first chunk without a function. *)
Fixpoint all_chunks_owned (chunks : list (Z * Z)) : M bool :=
  match chunks with
  | [] => ret true
  | (start, _) :: rest =>
      f <- query (fun s => get_func E s start) ;;
      match f with
      | Some _ => all_chunks_owned rest
      | None => ret false
      end
  end.

Definition recreate_both (func orig : Z) (chunks : list (Z * Z)) : M bool :=
  a1 <- call_add_func func ;;
  if a1 then
    a2 <- call_add_func orig ;;
    if a2 then all_chunks_owned chunks
    else ret false
  else ret false.

Fixpoint undo_damage (chunks : list (Z * Z)) : M unit :=
  match chunks with
  | [] => ret tt
  | (start, _) :: rest => call_del_func start ;;; undo_damage rest
  end.

Definition delete_and_recreate (func orig : Z) : M bool :=
  chunks <- query (fun s => Chunks E s orig) ;;
  d <- call_del_func orig ;;
  if d then
    done <- recreate_both func orig chunks ;;
    if done then ret true
    else undo_damage chunks ;;; ret false
  else ret false.

Definition restore_original (orig : Z) : M bool :=
  (if negb (orig =? BADADDR E) then
     _log ;;; call_add_func orig ;;; ret tt
   else ret tt) ;;;
  ret false.

Definition make_function (func orig : Z) : M bool :=
  ok <- call_add_func func ;;
  if ok then ret true
  else
    done <- (if negb (orig =? BADADDR E) then delete_and_recreate func orig
             else ret false) ;;
    if done then ret true
    else restore_original orig.

Definition _convert_address_to_function (fuel : nat) (func : Z) : M bool :=
  orig <- query (fun s => first_func_chunk E s func) ;;
  fix_or_detach fuel func ;;;
  make_function func orig.

Definition is_function_start (ea : Z) : M bool :=
  start <- query (fun s => get_func_attr_start E s ea) ;;
  ret (start =? ea).

Definition force_function (fuel : nat) (addr : Z) : M bool :=
  st <- is_function_start addr ;;
  if st then ret true
  else _convert_address_to_function fuel addr.

(** An exception that leaves the computation is one the engine raised. *)
Definition passes_on {A} (m : M A) : Prop :=
  forall w e w', m w = Some (Raises e, w') -> engine_raises E e.

(** The computation runs out of fuel only if [Q]. *)
Definition stuck_only_if (Q : Prop) {A} (m : M A) : Prop :=
  forall w, m w = None -> Q.

End Code.

Arguments mkWorld {E} _ _.
Arguments db {E} _.
Arguments log {E} _.
Arguments passes_on {E A} _.
Arguments stuck_only_if {E} _ {A} _.

End Raising.

(** An engine that always answers, as an engine that may raise. *)
Definition answering (E : Engine) : Raising.Engine := {|
  Raising.St := St E;
  Raising.BADADDR := BADADDR E;
  Raising.get_func_attr_start := fun s a => Returns (get_func_attr_start E s a);
  Raising.first_func_chunk := fun s a => Returns (first_func_chunk E s a);
  Raising.get_item_end := fun s a => Returns (get_item_end E s a);
  Raising.Chunks := fun s a => Returns (Chunks E s a);
  Raising.get_func := fun s a => Returns (get_func E s a);
  Raising.find_func_end := fun s a =>
    (Returns (fst (find_func_end E s a)), snd (find_func_end E s a));
  Raising.find_func_bounds := fun s a =>
    (Returns (fst (find_func_bounds E s a)), snd (find_func_bounds E s a));
  Raising.del_items := fun s a => (Returns tt, del_items E s a);
  Raising.create_insn := fun s a =>
    (Returns (fst (create_insn E s a)), snd (create_insn E s a));
  Raising.remove_fchunk := fun s a t =>
    (Returns (fst (remove_fchunk E s a t)), snd (remove_fchunk E s a t));
  Raising.add_func := fun s a =>
    (Returns (fst (add_func E s a)), snd (add_func E s a));
  Raising.del_func := fun s a =>
    (Returns (fst (del_func E s a)), snd (del_func E s a))
|}.

(** The small function table, with an engine fault: creating a function at
    105 raises ValueError and changes nothing. *)
Definition FaultyDB : Raising.Engine := {|
  Raising.St := mini;
  Raising.BADADDR := BADADDR64;
  Raising.get_func_attr_start := fun s a => Returns (mini_entry (lay s) a);
  Raising.first_func_chunk := fun s a => Returns (mini_entry (lay s) a);
  Raising.get_item_end := fun _ ea => Returns (ea + 1);
  Raising.Chunks := fun s o => Returns (mini_chunks (lay s) o);
  Raising.get_func := fun s a => Returns (mini_owner (lay s) a);
  Raising.find_func_end := fun s a =>
    (Returns (if in_range 100 110 a then 110 else BADADDR64), s);
  Raising.find_func_bounds := fun s _ => (Returns 0, s);
  Raising.del_items := fun s _ => (Returns tt, s);
  Raising.create_insn := fun s _ => (Returns 0, s);
  Raising.remove_fchunk := fun s _ _ => (Returns 0, s);
  Raising.add_func := fun s a =>
    if a =? 105 then (Raises ValueError, s)
    else (Returns (fst (mini_add s a)), snd (mini_add s a));
  Raising.del_func := fun s a =>
    (Returns (fst (mini_del s a)), snd (mini_del s a))
|}.

(** The same world, seen by the code that expects exceptions. *)
Definition raising_world {E : Engine} (w : World E)
  : Raising.World (answering E) :=
  Raising.mkWorld (E:=answering E) (db w) (log w).

(** On an engine that always answers the two readings of a piece of code
    do the same: same result, same database, same log. *)
Definition agrees {E : Engine} {A}
           (m' : Raising.M (answering E) A) (m : M E A) : Prop :=
  forall w,
    m' (raising_world w) =
    match m w with
    | Some (a, w') => Some (Returns a, raising_world w')
    | None => None
    end.

(** * Facts *)

Section RepairFacts.

Variable E : Engine.

Local Abbreviation World := (World E).
Local Abbreviation M := (M E).

(** ** Running the monad *)

Lemma bind_ret {A B} (a : A) (k : A -> M B) (w : World) :
  bind E (ret E a) k w = k a w.
Proof. reflexivity. Qed.

Lemma bind_query {A B} (f : St E -> A) (k : A -> M B) (w : World) :
  bind E (query E f) k w = k (f (db w)) w.
Proof. reflexivity. Qed.

Lemma bind_call {A B} (c : Call) (f : St E -> A * St E) (k : A -> M B)
      (w : World) :
  bind E (call E c f) k w =
  k (fst (f (db w))) (mkWorld (snd (f (db w))) (log w ++ [c])).
Proof. unfold bind, call. destruct (f (db w)); reflexivity. Qed.

Lemma call_run {A} (c : Call) (f : St E -> A * St E) (w : World) :
  call E c f w = Some (fst (f (db w)), mkWorld (snd (f (db w))) (log w ++ [c])).
Proof. unfold call. destruct (f (db w)); reflexivity. Qed.

Lemma bind_Some {A B} (m : M A) (k : A -> M B) (w : World) r :
  bind E m k w = Some r ->
  exists a w1, m w = Some (a, w1) /\ k a w1 = Some r.
Proof.
  unfold bind. destruct (m w) as [[a w1]|]; [|discriminate].
  intros H. exists a, w1. split; [reflexivity | exact H].
Qed.

Lemma bind_run {A B} (m : M A) (k : A -> M B) (w w1 : World) a :
  m w = Some (a, w1) -> bind E m k w = k a w1.
Proof. unfold bind. intros ->. reflexivity. Qed.

Lemma bind_None {A B} (m : M A) (k : A -> M B) (w : World) :
  m w = None -> bind E m k w = None.
Proof. unfold bind. intros ->. reflexivity. Qed.

Lemma world_eta (w : World) : mkWorld (db w) (log w) = w.
Proof. destruct w; reflexivity. Qed.

Ltac open_calls :=
  unfold call_find_func_end, call_find_func_bounds, call_del_items,
    call_create_insn, call_remove_fchunk, call_add_func, call_del_func, _log.

Ltac step :=
  open_calls;
  repeat (rewrite ?bind_ret, ?bind_query, ?bind_call; cbn [fst snd db log]).

Ltac returns := solve [do 2 eexists; reflexivity].

(** ** The loops *)

(** The chunk-removal loop always ends; it makes at most [n] calls, all of
    them [remove_fchunk(func, func)]. *)
Lemma remove_fchunk_loop_total (n : nat) (func : Z) (w : World) :
  exists w' calls,
    remove_fchunk_loop E n func w = Some (tt, w') /\
    log w' = log w ++ calls /\
    (length calls <= n)%nat /\
    Forall (fun c => c = RemoveFchunk func func) calls.
Proof.
  revert w. induction n as [|n IH]; intros w; cbn [remove_fchunk_loop].
  - exists w, []. rewrite app_nil_r. repeat split; auto.
  - step. destruct (_ =? 0).
    + eexists _, [_]. repeat split; cbn; auto. lia.
    + destruct (IH (mkWorld (snd (remove_fchunk E (db w) func func))
                            (log w ++ [RemoveFchunk func func])))
        as (w' & calls & Hrun & Hlog & Hlen & Hall).
      exists w', (RemoveFchunk func func :: calls).
      rewrite Hrun. cbn [log] in Hlog. rewrite Hlog, <- app_assoc.
      repeat split; cbn; auto. lia.
Qed.

Lemma fix_insns_exit (fuel : nat) (func : Z) (w w' : World) (b : bool) :
  _fix_unrecognized_function_insns E fuel func w = Some (b, w') ->
  recovery_exit E func b (db w').
Proof.
  unfold recovery_exit.
  revert w. induction fuel as [|fuel IH]; intros w;
    cbn [_fix_unrecognized_function_insns]; [discriminate|].
  step.
  destruct (fst (find_func_end E (db w) func) =? BADADDR E) eqn:Hfe.
  - apply Z.eqb_eq in Hfe. step.
    destruct (fst (find_func_bounds E _ func) =? 0) eqn:Hu.
    + apply Z.eqb_eq in Hu. step. intros [= <- <-]. exists (db w). cbn.
      right. repeat split; auto.
    + apply Z.eqb_neq in Hu. step.
      destruct (fst (create_insn E _ _) =? 0) eqn:Hc.
      * apply Z.eqb_eq in Hc. step. intros [= <- <-]. exists (db w). cbn.
        right. repeat split; auto.
      * apply IH.
  - apply Z.eqb_neq in Hfe. intros [= <- <-]. exists (db w). cbn. left. auto.
Qed.

Lemma fix_insns_calls (fuel : nat) (func : Z) (w w' : World) (b : bool) :
  _fix_unrecognized_function_insns E fuel func w = Some (b, w') ->
  exists calls, log w' = log w ++ calls /\ forallb item_call calls = true.
Proof.
  revert w. induction fuel as [|fuel IH]; intros w;
    cbn [_fix_unrecognized_function_insns]; [discriminate|].
  step.
  destruct (_ =? BADADDR E).
  - step. destruct (_ =? 0).
    + step. intros [= <- <-]. eexists [_; _]. cbn [log].
      rewrite <- app_assoc. split; reflexivity.
    + step. destruct (_ =? 0).
      * step. intros [= <- <-]. eexists [_; _; _; _]. cbn [log].
        rewrite <- !app_assoc. split; reflexivity.
      * intros H. apply IH in H. destruct H as (calls & Hlog & Hall).
        cbn [log] in Hlog. rewrite <- !app_assoc in Hlog. cbn in Hlog.
        eexists (_ :: _ :: _ :: _ :: calls). split; [exact Hlog|].
        cbn. exact Hall.
  - intros [= <- <-]. eexists [_]. split; reflexivity.
Qed.

(** ** The blocks of [_convert_address_to_function] *)

Lemma undo_damage_run (chunks : list (Z * Z)) (w : World) :
  undo_damage E chunks w =
  Some (tt, mkWorld (undo_state E (db w) chunks) (log w ++ undo_calls chunks)).
Proof.
  revert w. induction chunks as [|[start e] rest IH]; intros w;
    cbn [undo_damage undo_state undo_calls fold_left map].
  - rewrite app_nil_r, world_eta. reflexivity.
  - step. rewrite IH. cbn [db log fst]. unfold undo_state, undo_calls.
    rewrite <- app_assoc. reflexivity.
Qed.

(** The nested [if]s fall out without [return True] for one of three
    reasons. *)
Lemma recreate_both_run (func orig : Z) (chunks : list (Z * Z)) (w : World) :
  let a1 := add_func E (db w) func in
  let a2 := add_func E (snd a1) orig in
  recreate_both E func orig chunks w =
  if fst a1 then
    if fst a2 then
      Some (all_chunks_owned E (snd a2) chunks,
            mkWorld (snd a2) (log w ++ [AddFunc func; AddFunc orig]))
    else Some (false, mkWorld (snd a2) (log w ++ [AddFunc func; AddFunc orig]))
  else Some (false, mkWorld (snd a1) (log w ++ [AddFunc func])).
Proof.
  cbn zeta. unfold recreate_both. step.
  destruct (fst (add_func E (db w) func)); [|reflexivity].
  step. rewrite <- app_assoc.
  destruct (fst (add_func E _ orig)); reflexivity.
Qed.

Lemma recreate_both_total (func orig : Z) (chunks : list (Z * Z)) (w : World) :
  exists b w', recreate_both E func orig chunks w = Some (b, w').
Proof.
  rewrite recreate_both_run. cbn zeta.
  destruct (fst (add_func E (db w) func)); [|returns].
  destruct (fst (add_func E _ orig)); returns.
Qed.

Lemma delete_and_recreate_total (func orig : Z) (w : World) :
  exists b w', delete_and_recreate E func orig w = Some (b, w').
Proof.
  unfold delete_and_recreate. step.
  destruct (fst (del_func E (db w) orig)); [|returns].
  match goal with
  | |- context [bind E (recreate_both E func orig ?c) _ ?w0] =>
      destruct (recreate_both_total func orig c w0) as (b & w' & Hrun)
  end.
  rewrite (bind_run _ _ _ _ _ Hrun).
  destruct b; cbn beta iota; [returns|].
  rewrite (bind_run _ _ _ _ _ (undo_damage_run _ _)). returns.
Qed.

Lemma restore_original_run (orig : Z) (w : World) :
  restore_original E orig w =
  Some (false,
        if orig =? BADADDR E then w
        else mkWorld (snd (add_func E (db w) orig)) (log w ++ [AddFunc orig])).
Proof.
  unfold restore_original, _log, call_add_func, bind, ret, call.
  destruct (orig =? BADADDR E); cbn [negb]; [reflexivity|].
  destruct (add_func E (db w) orig); reflexivity.
Qed.

Lemma make_function_total (func orig : Z) (w : World) :
  exists b w', make_function E func orig w = Some (b, w').
Proof.
  unfold make_function. step.
  destruct (fst (add_func E (db w) func)); [returns|].
  destruct (negb (orig =? BADADDR E)).
  - match goal with
    | |- context [bind E (delete_and_recreate E func orig) _ ?w0] =>
        destruct (delete_and_recreate_total func orig w0) as (b & w' & Hrun)
    end.
    rewrite (bind_run _ _ _ _ _ Hrun).
    destruct b; cbn beta iota; [returns|]. rewrite restore_original_run. returns.
  - step. rewrite restore_original_run. returns.
Qed.

(** Past the guard and the first [if]/[else], [force_function] is the rest
    of [_convert_address_to_function]. *)
Lemma force_function_past_prelude (fuel : nat) (addr : Z) (w w1 : World) :
  is_function_start E (db w) addr = false ->
  fix_or_detach E fuel addr w = Some (tt, w1) ->
  force_function E fuel addr w =
  make_function E addr (first_func_chunk E (db w) addr) w1.
Proof.
  intros Hstart Hpre. unfold force_function. step. rewrite Hstart.
  unfold _convert_address_to_function. step.
  rewrite (bind_run _ _ _ _ _ Hpre). reflexivity.
Qed.

Lemma fix_or_detach_None (fuel : nat) (func : Z) (w : World) :
  fix_or_detach E fuel func w = None ->
  fst (find_func_end E (db w) func) = BADADDR E /\
  _fix_unrecognized_function_insns E fuel func (after_find_func_end E func w)
  = None.
Proof.
  unfold fix_or_detach, after_find_func_end. step.
  destruct (_ =? BADADDR E) eqn:Hfe.
  - apply Z.eqb_eq in Hfe. intros H. split; [exact Hfe|].
    unfold bind in H.
    destruct (_fix_unrecognized_function_insns E fuel func _) as [[b w']|];
      [discriminate | reflexivity].
  - destruct (remove_fchunk_loop_total 1024 func
                (mkWorld (snd (find_func_end E (db w) func))
                         (log w ++ [FindFuncEnd func])))
      as (w' & calls & Hrun & _).
    rewrite Hrun. discriminate.
Qed.

(** ** Fuel

    More fuel never changes a result: the fuel only decides how many rounds
    of the [while] loop are watched. *)

Lemma fix_insns_more_fuel (fuel : nat) (func : Z) (w : World) r :
  _fix_unrecognized_function_insns E fuel func w = Some r ->
  _fix_unrecognized_function_insns E (S fuel) func w = Some r.
Proof.
  revert w. induction fuel as [|fuel IH]; intros w; [discriminate|].
  remember (S fuel) as n eqn:Hn.
  cbn [_fix_unrecognized_function_insns]. subst n.
  cbn [_fix_unrecognized_function_insns]. step.
  destruct (_ =? BADADDR E); [|auto]. step.
  destruct (_ =? 0); [auto|]. step.
  destruct (_ =? 0); [auto|]. apply IH.
Qed.

Lemma force_function_more_fuel (fuel : nat) (addr : Z) (w : World) r :
  force_function E fuel addr w = Some r ->
  force_function E (S fuel) addr w = Some r.
Proof.
  unfold force_function, _convert_address_to_function. step.
  destruct (is_function_start E (db w) addr); [auto|]. step.
  intros H. apply bind_Some in H. destruct H as ([] & w1 & Hpre & H).
  assert (Hmore : fix_or_detach E (S fuel) addr w = Some (tt, w1));
    [|rewrite (bind_run _ _ _ _ _ Hmore); exact H].
  revert Hpre. unfold fix_or_detach. step.
  destruct (_ =? BADADDR E); [|auto].
  intros Hfix. apply bind_Some in Hfix. destruct Hfix as (b & w2 & Hfix & Hret).
  apply fix_insns_more_fuel in Hfix.
  rewrite (bind_run _ _ _ _ _ Hfix). exact Hret.
Qed.

(** ** The log only grows *)

Lemma appends_ret {A} (a : A) : appends (ret E a).
Proof. intros w a' w' [= _ <-]. exists []. now rewrite app_nil_r. Qed.

Lemma appends_query {A} (f : St E -> A) : appends (query E f).
Proof. intros w a' w' [= _ <-]. exists []. now rewrite app_nil_r. Qed.

Lemma appends_call {A} (c : Call) (f : St E -> A * St E) : appends (call E c f).
Proof. intros w a w'. rewrite call_run. intros [= _ <-]. now exists [c]. Qed.

Lemma appends_bind {A B} (m : M A) (k : A -> M B) :
  appends m -> (forall a, appends (k a)) -> appends (bind E m k).
Proof.
  intros Hm Hk w b w' H. apply bind_Some in H. destruct H as (a & w1 & H1 & H2).
  apply Hm in H1. apply Hk in H2. destruct H1 as [l1 H1], H2 as [l2 H2].
  exists (l1 ++ l2). now rewrite H2, H1, app_assoc.
Qed.

Lemma appends_if {A} (b : bool) (m1 m2 : M A) :
  appends m1 -> appends m2 -> appends (if b then m1 else m2).
Proof. destruct b; auto. Qed.

Create HintDb appends.
#[local] Hint Resolve appends_ret appends_query appends_call appends_bind
  appends_if : appends.

Ltac log_grows := open_calls; intros; auto 20 with appends.

Lemma appends_fix_insns (fuel : nat) (func : Z) :
  appends (_fix_unrecognized_function_insns E fuel func).
Proof.
  induction fuel as [|fuel IH]; cbn [_fix_unrecognized_function_insns].
  - intros w a w'. discriminate.
  - repeat (first [ apply appends_bind; [|intros] | apply appends_if ]);
      solve [log_grows | exact IH].
Qed.

Lemma appends_remove_fchunk_loop (n : nat) (func : Z) :
  appends (remove_fchunk_loop E n func).
Proof.
  induction n as [|n IH]; cbn [remove_fchunk_loop]; [log_grows|].
  apply appends_bind; [log_grows|]. intros r. apply appends_if; [log_grows|exact IH].
Qed.

Lemma appends_fix_or_detach (fuel : nat) (func : Z) :
  appends (fix_or_detach E fuel func).
Proof.
  unfold fix_or_detach. apply appends_bind; [log_grows|]. intros fe.
  apply appends_if.
  - apply appends_bind; [apply appends_fix_insns | log_grows].
  - apply appends_remove_fchunk_loop.
Qed.

Lemma appends_undo_damage (chunks : list (Z * Z)) :
  appends (undo_damage E chunks).
Proof.
  induction chunks as [|[start e] rest IH]; cbn [undo_damage]; [log_grows|].
  apply appends_bind; [log_grows | intros; exact IH].
Qed.

Lemma appends_delete_and_recreate (func orig : Z) :
  appends (delete_and_recreate E func orig).
Proof.
  unfold delete_and_recreate, recreate_both.
  repeat (first [ apply appends_bind; [|intros]
                | apply appends_if
                | apply appends_undo_damage ]); log_grows.
Qed.

(** ** The guard of [force_function] *)

Lemma force_function_guard (fuel : nat) (addr : Z) (w : World) :
  is_function_start E (db w) addr = true ->
  force_function E fuel addr w = ret E true w.
Proof.
  intros Hstart. unfold force_function. step. rewrite Hstart. reflexivity.
Qed.

(** C2.  When [addr] is already a function start, [force_function] answers
    True at once: the world it hands back is the world it was given, so the
    database is the same and no call was added to the log. *)
Theorem force_function_already_start (fuel : nat) (addr : Z) (w : World) :
  is_function_start E (db w) addr = true ->
  force_function E fuel addr w = Some (true, w).
Proof.
  intros Hstart. rewrite (force_function_guard _ _ _ Hstart). reflexivity.
Qed.

(** ** Results are booleans *)

(** With an engine that always answers, [force_function] hands back a
    boolean and a world for every address and amount of fuel, unless the
    [while] loop of the recovery, entered because no function end was
    found, is still running when the fuel is used up. *)
Theorem force_function_returns_bool (fuel : nat) (addr : Z) (w : World) :
  (exists b w', force_function E fuel addr w = Some (b, w')) \/
  (is_function_start E (db w) addr = false /\
   fst (find_func_end E (db w) addr) = BADADDR E /\
   _fix_unrecognized_function_insns E fuel addr (after_find_func_end E addr w)
   = None).
Proof.
  destruct (is_function_start E (db w) addr) eqn:Hstart.
  - left. rewrite (force_function_guard _ _ _ Hstart). returns.
  - destruct (fix_or_detach E fuel addr w) as [[[] w1]|] eqn:Hpre.
    + left. rewrite (force_function_past_prelude _ _ _ _ Hstart Hpre).
      apply make_function_total.
    + right. split; [reflexivity|]. apply fix_or_detach_None. exact Hpre.
Qed.

(** ** Iteration bounds *)

(** C3, as amended.  The chunk-removal loop ends for every engine, after at
    most 1024 calls of [remove_fchunk(func, func)].  The recovery loop has
    no counter: when it ends, it is because the engine found a function
    end, or reported item 0, or refused [create_insn]. *)
Theorem loops_end (func : Z) (w : World) :
  (exists w' calls,
     remove_fchunk_loop E 1024 func w = Some (tt, w') /\
     log w' = log w ++ calls /\
     (length calls <= 1024)%nat /\
     Forall (fun c => c = RemoveFchunk func func) calls) /\
  (forall fuel b w',
     _fix_unrecognized_function_insns E fuel func w = Some (b, w') ->
     recovery_exit E func b (db w')).
Proof.
  split.
  - apply remove_fchunk_loop_total.
  - intros fuel b w'. apply fix_insns_exit.
Qed.

(** ** Recovery that fails *)

(** C4, as amended.  When no function end is found and the recovery loop
    answers False, no chunk removal is made, but the answer is dropped: the
    conversion goes on with [add_func(func)] as it does after any recovery,
    and returns True when that call succeeds. *)
Theorem failed_recovery_still_creates (fuel : nat) (func : Z) (w w2 : World) :
  fst (find_func_end E (db w) func) = BADADDR E ->
  _fix_unrecognized_function_insns E fuel func (after_find_func_end E func w)
  = Some (false, w2) ->
  (exists calls, log w2 = log w ++ calls /\ forallb item_call calls = true) /\
  _convert_address_to_function E fuel func w =
  make_function E func (first_func_chunk E (db w) func) w2 /\
  (fst (add_func E (db w2) func) = true ->
   _convert_address_to_function E fuel func w =
   Some (true, mkWorld (snd (add_func E (db w2) func))
                       (log w2 ++ [AddFunc func]))).
Proof.
  intros Hfe Hfix.
  assert (Hconv : _convert_address_to_function E fuel func w =
                  make_function E func (first_func_chunk E (db w) func) w2).
  { assert (Hpre : fix_or_detach E fuel func w = Some (tt, w2)).
    { unfold fix_or_detach. step. rewrite Hfe, Z.eqb_refl.
      unfold after_find_func_end in Hfix.
      rewrite (bind_run _ _ _ _ _ Hfix). reflexivity. }
    unfold _convert_address_to_function. step.
    rewrite (bind_run _ _ _ _ _ Hpre). reflexivity. }
  split; [|split].
  - destruct (fix_insns_calls _ _ _ _ _ Hfix) as (calls & Hlog & Hall).
    exists (FindFuncEnd func :: calls). split.
    + rewrite Hlog. unfold after_find_func_end. cbn [log].
      rewrite <- app_assoc. reflexivity.
    + exact Hall.
  - exact Hconv.
  - intros Hadd. rewrite Hconv. unfold make_function. step. rewrite Hadd.
    reflexivity.
Qed.

(** ** The destructive path *)

Lemma make_function_destructive (func orig : Z) (w1 : World) (s2 s3 : St E) :
  add_func E (db w1) func = (false, s2) ->
  orig <> BADADDR E ->
  del_func E s2 orig = (true, s3) ->
  make_function E func orig w1 =
  bind E (recreate_both E func orig (Chunks E s2 orig))
    (fun done =>
       if done then ret E true
       else bind E (bind E (undo_damage E (Chunks E s2 orig))
                      (fun _ => ret E false))
              (fun _ => restore_original E orig))
    (mkWorld s3 (log w1 ++ [AddFunc func; DelFunc orig])).
Proof.
  intros Hadd Horig Hdel. apply Z.eqb_neq in Horig.
  unfold make_function. step. rewrite Hadd. cbn [fst snd].
  rewrite Horig. cbn [negb]. unfold delete_and_recreate, bind at 1.
  step. rewrite Hdel. cbn [fst snd]. rewrite <- app_assoc. cbn [app].
  unfold bind.
  destruct (recreate_both E func orig _ _) as [[[] w4]|]; try reflexivity.
  destruct (undo_damage E _ w4) as [[[] w5]|]; reflexivity.
Qed.

(** C7.  On the destructive path, when deleting the original succeeds, the
    function at [addr] is created, the function at the original entry is
    created again, and every chunk start of the snapshot taken before the
    deletion has some owner, [force_function] answers True, and these four
    calls are the last it makes. *)
Theorem destructive_path_success
        (fuel : nat) (addr orig : Z) (w w1 : World) (s2 s3 s4 s5 : St E) :
  is_function_start E (db w) addr = false ->
  first_func_chunk E (db w) addr = orig ->
  fix_or_detach E fuel addr w = Some (tt, w1) ->
  add_func E (db w1) addr = (false, s2) ->
  orig <> BADADDR E ->
  del_func E s2 orig = (true, s3) ->
  add_func E s3 addr = (true, s4) ->
  add_func E s4 orig = (true, s5) ->
  all_chunks_owned E s5 (Chunks E s2 orig) = true ->
  force_function E fuel addr w =
  Some (true,
        mkWorld s5 (log w1 ++ [AddFunc addr; DelFunc orig;
                               AddFunc addr; AddFunc orig])).
Proof.
  intros Hstart Hfirst Hpre Hadd Horig Hdel Hadd1 Hadd2 Hall.
  rewrite (force_function_past_prelude _ _ _ _ Hstart Hpre), Hfirst.
  rewrite (make_function_destructive _ _ _ _ _ Hadd Horig Hdel).
  unfold bind. rewrite recreate_both_run. cbn zeta. cbn [db log].
  rewrite Hadd1. cbn [fst snd]. rewrite Hadd2. cbn [fst snd].
  rewrite Hall, <- app_assoc. reflexivity.
Qed.

(** C8.  On the destructive path, after the original has been deleted, when
    creating the function at [addr] fails, or creating the original again
    fails, or a chunk start of the snapshot has no owner, [force_function]
    calls [del_func] on every chunk start of the snapshot in order, each on
    the state the previous one left and whatever it answered, then calls
    [add_func] on the original entry, and answers False whatever that call
    answered. *)
Theorem destructive_path_rollback
        (fuel : nat) (addr orig : Z) (w w1 : World) (s2 s3 : St E) :
  is_function_start E (db w) addr = false ->
  first_func_chunk E (db w) addr = orig ->
  fix_or_detach E fuel addr w = Some (tt, w1) ->
  add_func E (db w1) addr = (false, s2) ->
  orig <> BADADDR E ->
  del_func E s2 orig = (true, s3) ->
  (fst (add_func E s3 addr) = false \/
   (fst (add_func E s3 addr) = true /\
    fst (add_func E (snd (add_func E s3 addr)) orig) = false) \/
   (fst (add_func E s3 addr) = true /\
    fst (add_func E (snd (add_func E s3 addr)) orig) = true /\
    all_chunks_owned E (snd (add_func E (snd (add_func E s3 addr)) orig))
      (Chunks E s2 orig) = false)) ->
  exists w4,
    recreate_both E addr orig (Chunks E s2 orig)
      (mkWorld s3 (log w1 ++ [AddFunc addr; DelFunc orig])) = Some (false, w4) /\
    force_function E fuel addr w =
    Some (false,
          mkWorld (snd (add_func E (undo_state E (db w4) (Chunks E s2 orig)) orig))
                  (log w4 ++ undo_calls (Chunks E s2 orig) ++ [AddFunc orig])).
Proof.
  intros Hstart Hfirst Hpre Hadd Horig Hdel Hfail.
  rewrite (force_function_past_prelude _ _ _ _ Hstart Hpre), Hfirst.
  rewrite (make_function_destructive _ _ _ _ _ Hadd Horig Hdel).
  assert (Hrec : exists w4,
             recreate_both E addr orig (Chunks E s2 orig)
               (mkWorld s3 (log w1 ++ [AddFunc addr; DelFunc orig]))
             = Some (false, w4)).
  { rewrite recreate_both_run. cbn zeta. cbn [db log].
    destruct Hfail as [H1 | [[H1 H2] | (H1 & H2 & H3)]].
    - rewrite H1. eauto.
    - rewrite H1, H2. eauto.
    - rewrite H1, H2, H3. eauto. }
  destruct Hrec as [w4 Hrec]. exists w4. split; [exact Hrec|].
  rewrite (bind_run _ _ _ _ _ Hrec). cbn beta iota.
  unfold bind, ret. rewrite undo_damage_run. cbn beta iota.
  rewrite restore_original_run.
  apply Z.eqb_neq in Horig. rewrite Horig. cbn [db log].
  rewrite <- app_assoc. reflexivity.
Qed.

(** ** The last call before False *)

(** C10.  Whenever [_convert_address_to_function] answers False and the
    first chunk captured on entry is not BADADDR, the last call it made is
    [add_func] on that address: the final world is the one that call left,
    and False is answered whatever the call answered. *)
Theorem false_ends_with_restore_attempt
        (fuel : nat) (func orig : Z) (w w' : World) :
  first_func_chunk E (db w) func = orig ->
  orig <> BADADDR E ->
  _convert_address_to_function E fuel func w = Some (false, w') ->
  exists w1 calls,
    log w1 = log w ++ calls /\
    restore_original E orig w1 = Some (false, w') /\
    w' = mkWorld (snd (add_func E (db w1) orig)) (log w1 ++ [AddFunc orig]).
Proof.
  intros Hfirst Horig. unfold _convert_address_to_function. step.
  rewrite Hfirst. intros H.
  apply bind_Some in H. destruct H as ([] & w1 & Hpre & H).
  apply appends_fix_or_detach in Hpre. destruct Hpre as [l1 Hl1].
  apply Z.eqb_neq in Horig.
  unfold make_function in H. revert H. step.
  destruct (fst (add_func E (db w1) func)); [discriminate|].
  rewrite Horig. cbn [negb]. intros H.
  apply bind_Some in H. destruct H as (done & w3 & Hdel & H).
  apply appends_delete_and_recreate in Hdel. destruct Hdel as [l2 Hl2].
  cbn [log] in Hl2.
  destruct done; [discriminate|].
  exists w3, (l1 ++ AddFunc func :: l2). split; [|split].
  - rewrite Hl2, Hl1, <- !app_assoc. reflexivity.
  - exact H.
  - rewrite restore_original_run, Horig in H. now inversion H.
Qed.

(** ** Keeping a property of the database *)

Lemma keeps_ret (P : St E -> Prop) {A} (a : A) : keeps P (ret E a).
Proof. intros w a' w' [= _ <-]. auto. Qed.

Lemma keeps_query (P : St E -> Prop) {A} (f : St E -> A) : keeps P (query E f).
Proof. intros w a' w' [= _ <-]. auto. Qed.

Lemma keeps_call (P : St E -> Prop) {A} (c : Call) (f : St E -> A * St E) :
  (forall s, P s -> P (snd (f s))) -> keeps P (call E c f).
Proof. intros Hf w a w'. rewrite call_run. intros [= _ <-]. apply Hf. Qed.

Lemma keeps_bind (P : St E -> Prop) {A B} (m : M A) (k : A -> M B) :
  keeps P m -> (forall a, keeps P (k a)) -> keeps P (bind E m k).
Proof.
  intros Hm Hk w b w' H HP. apply bind_Some in H.
  destruct H as (a & w1 & H1 & H2). eapply Hk; eauto.
Qed.

Lemma keeps_if (P : St E -> Prop) {A} (b : bool) (m1 m2 : M A) :
  keeps P m1 -> keeps P m2 -> keeps P (if b then m1 else m2).
Proof. destruct b; auto. Qed.

Lemma keeps_fix_insns (P : St E -> Prop) (fuel : nat) (func : Z) :
  (forall s a, P s -> P (snd (find_func_end E s a))) ->
  (forall s a, P s -> P (snd (find_func_bounds E s a))) ->
  (forall s a, P s -> P (del_items E s a)) ->
  (forall s a, P s -> P (snd (create_insn E s a))) ->
  keeps P (_fix_unrecognized_function_insns E fuel func).
Proof.
  intros H1 H2 H3 H4.
  induction fuel as [|fuel IH]; cbn [_fix_unrecognized_function_insns].
  - intros w a w'. discriminate.
  - open_calls.
    repeat (first [ apply keeps_bind; [|intros] | apply keeps_if
                  | apply keeps_ret | apply keeps_query | exact IH
                  | apply keeps_call; cbn [snd]; intros ]);
      auto.
Qed.

Lemma keeps_remove_fchunk_loop (P : St E -> Prop) (n : nat) (func : Z) :
  (forall s, P s -> P (snd (remove_fchunk E s func func))) ->
  keeps P (remove_fchunk_loop E n func).
Proof.
  intros H. induction n as [|n IH]; cbn [remove_fchunk_loop].
  - apply keeps_ret.
  - open_calls. apply keeps_bind; [apply keeps_call; exact H|].
    intros r. apply keeps_if; [apply keeps_ret | exact IH].
Qed.

Lemma keeps_fix_or_detach (P : St E -> Prop) (fuel : nat) (func : Z) :
  (forall s a, P s -> P (snd (find_func_end E s a))) ->
  (forall s a, P s -> P (snd (find_func_bounds E s a))) ->
  (forall s a, P s -> P (del_items E s a)) ->
  (forall s a, P s -> P (snd (create_insn E s a))) ->
  (forall s, P s -> P (snd (remove_fchunk E s func func))) ->
  keeps P (fix_or_detach E fuel func).
Proof.
  intros H1 H2 H3 H4 H5. unfold fix_or_detach. open_calls.
  apply keeps_bind; [apply keeps_call; intros; apply H1; assumption|].
  intros fe. apply keeps_if.
  - apply keeps_bind; [apply keeps_fix_insns; assumption|].
    intros; apply keeps_ret.
  - apply keeps_remove_fchunk_loop; assumption.
Qed.


End RepairFacts.

(** ** Engines that keep their books *)

Section HonestFacts.

Variable E : Engine.
Hypothesis HE : Honest E.

Variable s0 : St E.
Variables func orig : Z.

Hypothesis func_free_or_orig : free_or_orig E s0 orig func.
Hypothesis func_is_new : forall x, get_func E s0 x <> Some func.

Local Abbreviation inv := (touches_only_ours E s0 func orig).
Local Abbreviation mine := (ours func orig).

Lemma owner_eq_dec (a b : option Z) : {a = b} + {a <> b}.
Proof. decide equality. apply Z.eq_dec. Qed.

Lemma inv_init : inv s0.
Proof. intros x. left. reflexivity. Qed.

Lemma inv_same (s s' : St E) :
  (forall x, get_func E s' x = get_func E s x) -> inv s -> inv s'.
Proof. intros Hsame Hinv x. rewrite Hsame. apply Hinv. Qed.

(** An address that was free or in [orig] is still free, in [orig] or in
    [func]. *)
Lemma inv_mine_at (s : St E) (a : Z) :
  inv s -> free_or_orig E s0 orig a -> mine (get_func E s a).
Proof.
  intros Hinv Ha. destruct (Hinv a) as [Heq | [_ Hm]]; [|exact Hm].
  rewrite Heq. destruct Ha as [-> | ->]; [left | right; left]; reflexivity.
Qed.

(** An address whose owner is one of ours was free or in [orig]. *)
Lemma inv_was_free_or_orig (s : St E) (x : Z) :
  inv s -> mine (get_func E s x) -> get_func E s x <> None ->
  free_or_orig E s0 orig x.
Proof.
  intros Hinv Hm Hsome. destruct (Hinv x) as [Heq | [Hf _]]; [|exact Hf].
  rewrite Heq in Hm, Hsome. destruct Hm as [Hm | [Hm | Hm]].
  - contradiction.
  - right. exact Hm.
  - exfalso. exact (func_is_new x Hm).
Qed.

Lemma inv_remove_fchunk (s : St E) :
  inv s -> inv (snd (remove_fchunk E s func func)).
Proof.
  intros Hinv x.
  destruct (honest_remove_fchunk E HE s func func x) as [Hsame | [Hwas Hnow]].
  - rewrite Hsame. apply Hinv.
  - rewrite Hnow. destruct (owner_eq_dec (get_func E s x) None) as [Hn | Hn].
    + destruct (Hinv x) as [Heq | [Hf _]].
      * left. congruence.
      * right. split; [exact Hf | left; reflexivity].
    + right. split; [|left; reflexivity].
      apply (inv_was_free_or_orig s x Hinv); [|exact Hn].
      rewrite Hwas. apply inv_mine_at; assumption.
Qed.

Lemma inv_add_func (s : St E) (a : Z) :
  a = func \/ a = orig -> inv s -> inv (snd (add_func E s a)).
Proof.
  intros Ha Hinv. destruct (fst (add_func E s a)) eqn:Hok.
  - destruct (honest_add_ok E HE s a Hok) as [_ Hx]. intros x.
    destruct (Hx x) as [Hsame | [Hwas Hnow]].
    + rewrite Hsame. apply Hinv.
    + right. split.
      * destruct (Hinv x) as [Heq | [Hf _]]; [|exact Hf].
        left. congruence.
      * rewrite Hnow. destruct Ha as [-> | ->];
          [right; right | right; left]; reflexivity.
  - apply (inv_same s); [|exact Hinv].
    intros x. apply (honest_add_fail E HE). exact Hok.
Qed.

Lemma inv_del_func (s : St E) (a : Z) :
  mine (get_func E s a) -> inv s -> inv (snd (del_func E s a)).
Proof.
  intros Ha Hinv. destruct (fst (del_func E s a)) eqn:Hok.
  - intros x. destruct (honest_del_ok E HE s a x Hok) as [Heq Hne].
    destruct (owner_eq_dec (get_func E s x) (get_func E s a)) as [Hxa | Hxa].
    + rewrite (Heq Hxa).
      destruct (owner_eq_dec (get_func E s x) None) as [Hn | Hn].
      * destruct (Hinv x) as [Hs | [Hf _]].
        -- left. congruence.
        -- right. split; [exact Hf | left; reflexivity].
      * right. split; [|left; reflexivity].
        apply (inv_was_free_or_orig s x Hinv); [|exact Hn].
        rewrite Hxa. exact Ha.
    + rewrite (Hne Hxa). apply Hinv.
  - apply (inv_same s); [|exact Hinv].
    intros x. apply (honest_del_fail E HE). exact Hok.
Qed.

(** The chunk starts of the snapshot. *)

Lemma starts_after_delete (s : St E) :
  fst (del_func E s orig) = true ->
  starts_ours E func orig (Chunks E s orig) (snd (del_func E s orig)).
Proof.
  intros Hok c Hc. left.
  apply (honest_del_ok E HE s orig (fst c) Hok).
  apply (honest_chunks E HE). exact Hc.
Qed.

Lemma starts_add_func (chunks : list (Z * Z)) (s : St E) (a : Z) :
  a = func \/ a = orig ->
  starts_ours E func orig chunks s ->
  starts_ours E func orig chunks (snd (add_func E s a)).
Proof.
  intros Ha Hs c Hc. destruct (fst (add_func E s a)) eqn:Hok.
  - destruct (honest_add_ok E HE s a Hok) as [_ Hx].
    destruct (Hx (fst c)) as [Hsame | [_ Hnow]].
    + rewrite Hsame. apply Hs. exact Hc.
    + rewrite Hnow. destruct Ha as [-> | ->];
        [right; right | right; left]; reflexivity.
  - rewrite (honest_add_fail E HE s a (fst c) Hok). apply Hs. exact Hc.
Qed.

Lemma starts_del_func (chunks : list (Z * Z)) (s : St E) (a : Z) :
  starts_ours E func orig chunks s ->
  starts_ours E func orig chunks (snd (del_func E s a)).
Proof.
  intros Hs c Hc. destruct (fst (del_func E s a)) eqn:Hok.
  - destruct (honest_del_ok E HE s a (fst c) Hok) as [Heq Hne].
    destruct (owner_eq_dec (get_func E s (fst c)) (get_func E s a)) as [H | H].
    + rewrite (Heq H). left. reflexivity.
    + rewrite (Hne H). apply Hs. exact Hc.
  - rewrite (honest_del_fail E HE s a (fst c) Hok). apply Hs. exact Hc.
Qed.

(** The blocks of the destructive path. *)

Lemma keeps_recreate_both (chunks snapshot : list (Z * Z)) :
  keeps (fun s => inv s /\ starts_ours E func orig snapshot s)
        (recreate_both E func orig chunks).
Proof.
  assert (Hadd : forall a, a = func \/ a = orig ->
            forall s, inv s /\ starts_ours E func orig snapshot s ->
                 inv (snd (add_func E s a)) /\
                 starts_ours E func orig snapshot (snd (add_func E s a))).
  { intros a Ha s [Hi Hs]. split;
      [apply inv_add_func | apply starts_add_func]; assumption. }
  unfold recreate_both, call_add_func.
  apply keeps_bind; [apply keeps_call, Hadd; left; reflexivity|].
  intros a1. apply keeps_if; [|apply keeps_ret].
  apply keeps_bind; [apply keeps_call, Hadd; right; reflexivity|].
  intros a2. apply keeps_if; [apply keeps_query | apply keeps_ret].
Qed.

Lemma keeps_undo_damage (rest snapshot : list (Z * Z)) :
  incl rest snapshot ->
  keeps (fun s => inv s /\ starts_ours E func orig snapshot s)
        (undo_damage E rest).
Proof.
  induction rest as [|[start e] rest IH]; intros Hincl; cbn [undo_damage].
  - apply keeps_ret.
  - unfold call_del_func. apply keeps_bind.
    + apply keeps_call. cbn [snd]. intros s [Hi Hs]. split.
      * apply inv_del_func; [|exact Hi].
        apply (Hs (start, e)). apply Hincl. left. reflexivity.
      * apply starts_del_func. exact Hs.
    + intros _. apply IH. intros c Hc. apply Hincl. right. exact Hc.
Qed.

Lemma keeps_delete_and_recreate :
  free_or_orig E s0 orig orig ->
  keeps inv (delete_and_recreate E func orig).
Proof.
  intros Horig w b w' H Hinv. unfold delete_and_recreate in H.
  revert H. unfold call_del_func. rewrite bind_query, bind_call.
  cbn [fst snd db log].
  assert (Hdel : inv (snd (del_func E (db w) orig))).
  { apply inv_del_func; [|exact Hinv]. apply inv_mine_at; assumption. }
  destruct (fst (del_func E (db w) orig)) eqn:Hok.
  - intros H. apply bind_Some in H. destruct H as (done & w4 & Hrec & H).
    pose proof (keeps_recreate_both _ (Chunks E (db w) orig) _ _ _ Hrec
                  (conj Hdel (starts_after_delete _ Hok))) as Hkept.
    destruct done.
    + injection H as _ <-. apply Hkept.
    + apply bind_Some in H. destruct H as ([] & w5 & Hundo & H).
      injection H as _ <-.
      apply (keeps_undo_damage _ _ (incl_refl _) _ _ _ Hundo Hkept).
  - intros [= _ <-]. exact Hdel.
Qed.

Lemma keeps_restore_original : keeps inv (restore_original E orig).
Proof.
  intros w b w'. rewrite restore_original_run. intros [= _ <-] Hinv.
  destruct (orig =? BADADDR E); [exact Hinv|].
  apply inv_add_func; [right; reflexivity | exact Hinv].
Qed.

Lemma keeps_make_function :
  (orig <> BADADDR E -> free_or_orig E s0 orig orig) ->
  keeps inv (make_function E func orig).
Proof.
  intros Horig. unfold make_function, call_add_func.
  apply keeps_bind.
  { apply keeps_call. intros s. apply inv_add_func. left. reflexivity. }
  intros ok. apply keeps_if; [apply keeps_ret|].
  apply keeps_bind.
  - destruct (orig =? BADADDR E) eqn:Hb; cbn [negb]; [apply keeps_ret|].
    apply keeps_delete_and_recreate, Horig. apply Z.eqb_neq. exact Hb.
  - intros done. apply keeps_if; [apply keeps_ret|].
    apply keeps_restore_original.
Qed.

Lemma keeps_fix_or_detach_inv (fuel : nat) :
  keeps inv (fix_or_detach E fuel func).
Proof.
  apply keeps_fix_or_detach.
  - intros s a. apply inv_same. apply (honest_find_func_end E HE).
  - intros s a. apply inv_same. apply (honest_find_func_bounds E HE).
  - intros s a. apply inv_same. apply (honest_del_items E HE).
  - intros s a. apply inv_same. apply (honest_create_insn E HE).
  - apply inv_remove_fchunk.
Qed.

End HonestFacts.

(** ** What [force_function] does to an engine that keeps its books *)

Section HonestResults.

Variable E : Engine.
Hypothesis HE : Honest E.

Lemma start_iff_own_entry (s : St E) (a : Z) :
  get_func E s a = Some a -> is_function_start E s a = true.
Proof.
  intros H. unfold is_function_start.
  rewrite (honest_attr E HE), H. apply Z.eqb_refl.
Qed.

Lemma honest_func_is_new (s : St E) (a x : Z) :
  is_function_start E s a = false -> get_func E s x <> Some a.
Proof.
  intros Hstart H. apply (honest_entry E HE) in H. destruct H as [H _].
  rewrite (start_iff_own_entry s a H) in Hstart. discriminate.
Qed.

Lemma honest_func_free_or_orig (s : St E) (a : Z) :
  free_or_orig E s (first_func_chunk E s a) a.
Proof.
  unfold free_or_orig. rewrite (honest_first E HE).
  destruct (get_func E s a); [right | left]; reflexivity.
Qed.

Lemma honest_orig_free_or_orig (s : St E) (a : Z) :
  first_func_chunk E s a <> BADADDR E ->
  free_or_orig E s (first_func_chunk E s a) (first_func_chunk E s a).
Proof.
  unfold free_or_orig. rewrite (honest_first E HE).
  destruct (get_func E s a) as [e|] eqn:Ha; [|congruence].
  intros _. right. apply (honest_entry E HE s a e Ha).
Qed.


(** Every address that [force_function] leaves with another owner was free
    or in the original function on entry. *)
Lemma force_function_touches_only_ours
      (fuel : nat) (addr : Z) (w w' : World E) (b : bool) :
  is_function_start E (db w) addr = false ->
  force_function E fuel addr w = Some (b, w') ->
  touches_only_ours E (db w) addr (first_func_chunk E (db w) addr) (db w').
Proof.
  intros Hstart. unfold force_function. rewrite bind_query, Hstart.
  unfold _convert_address_to_function. rewrite bind_query.
  intros H. apply bind_Some in H. destruct H as ([] & w1 & Hpre & H).
  pose proof (honest_func_free_or_orig (db w) addr) as Hfree.
  pose proof (fun x => honest_func_is_new (db w) addr x Hstart) as Hnew.
  eapply (keeps_make_function E HE (db w) addr _ Hnew
            (honest_orig_free_or_orig (db w) addr)); [exact H|].
  eapply (keeps_fix_or_detach_inv E HE (db w) addr _ Hfree Hnew);
    [exact Hpre|].
  apply inv_init.
Qed.

Lemma count_if_le (p q : Z -> bool) (addresses : list Z) :
  (forall x, p x = true -> q x = true) ->
  (count_if p addresses <= count_if q addresses)%nat.
Proof.
  intros Hpq. unfold count_if.
  induction addresses as [|x rest IH]; cbn [filter]; [lia|].
  destruct (p x) eqn:Hp.
  - rewrite (Hpq x Hp). cbn [length]. lia.
  - destruct (q x); cbn [length]; lia.
Qed.

(** C5, as amended.  With an engine that keeps its books, an address that
    had an owner when [force_function] was called and has none when it
    returns lies in a chunk the original function had on entry; so among any
    addresses, those that lost their owner are no more than those in the
    original function's chunks on entry.  This covers every way the call can
    return, the rollback and a rollback that fails included. *)
Theorem unowned_within_original_chunks
        (fuel : nat) (addr : Z) (w w' : World E) (b : bool)
        (addresses : list Z) :
  is_function_start E (db w) addr = false ->
  force_function E fuel addr w = Some (b, w') ->
  (forall x, newly_unowned (db w) (db w') x = true ->
        in_chunks (Chunks E (db w) (first_func_chunk E (db w) addr)) x = true) /\
  (count_if (newly_unowned (db w) (db w')) addresses <=
   count_if (in_chunks (Chunks E (db w) (first_func_chunk E (db w) addr)))
            addresses)%nat.
Proof.
  intros Hstart Hrun.
  pose proof (force_function_touches_only_ours _ _ _ _ _ Hstart Hrun) as Hinv.
  assert (Hin : forall x, newly_unowned (db w) (db w') x = true ->
     in_chunks (Chunks E (db w) (first_func_chunk E (db w) addr)) x = true).
  { intros x. unfold newly_unowned, owned. intros Hx.
    apply andb_true_iff in Hx. destruct Hx as [Hbefore Hafter].
    apply (honest_cover E HE).
    destruct (get_func E (db w) x) as [g|] eqn:Hg; [|discriminate].
    destruct (get_func E (db w') x) as [g'|] eqn:Hg'; [discriminate|].
    destruct (Hinv x) as [Heq | [[Hf | Hf] _]]; congruence. }
  split; [exact Hin | apply count_if_le, Hin].
Qed.

(** C1, as amended.  With an engine that keeps its books, when
    [force_function] answers True for an address that was not a function
    start, the address is a function start in the database it leaves. *)
Theorem true_means_function_start
        (fuel : nat) (addr : Z) (w w' : World E) :
  is_function_start E (db w) addr = false ->
  force_function E fuel addr w = Some (true, w') ->
  is_function_start E (db w') addr = true.
Proof.
  intros Hstart. unfold force_function. rewrite bind_query, Hstart.
  unfold _convert_address_to_function. rewrite bind_query.
  intros H. apply bind_Some in H. destruct H as ([] & w1 & _ & H).
  apply start_iff_own_entry. revert H.
  unfold make_function, call_add_func. rewrite bind_call. cbn [fst snd db log].
  destruct (fst (add_func E (db w1) addr)) eqn:Hadd.
  - intros [= <-]. cbn [db]. apply (honest_add_ok E HE _ _ Hadd).
  - intros H. apply bind_Some in H. destruct H as (done & w3 & Hdone & H).
    destruct done; cbn beta iota in H;
      [|rewrite restore_original_run in H; discriminate].
    unfold ret in H. injection H as <-.
    destruct (negb (_ =? BADADDR E)); [|discriminate Hdone].
    revert Hdone. unfold delete_and_recreate, call_del_func.
    rewrite bind_query, bind_call. cbn [fst snd db log].
    destruct (fst (del_func E _ _)); [|intros H; discriminate H].
    intros H. apply bind_Some in H. destruct H as (ok & w4 & Hrec & H).
    destruct ok; cbn beta iota in H.
    + unfold ret in H. injection H as <-. revert Hrec.
      rewrite recreate_both_run. cbn zeta. cbn [db log].
      match goal with
      | |- (if ?c then _ else _) = _ -> _ => destruct c eqn:Ha1
      end; [|intros H; discriminate H].
      match goal with
      | |- (if ?c then _ else _) = _ -> _ => destruct c eqn:Ha2
      end; [|intros H; discriminate H].
      intros [= _ <-]. cbn [db].
      destruct (honest_add_ok E HE _ _ Ha1) as [Hown _].
      destruct (honest_add_ok E HE _ _ Ha2) as [_ Hx].
      destruct (Hx addr) as [Hsame | [Hnone _]]; congruence.
    + apply bind_Some in H. destruct H as ([] & w5 & _ & H). discriminate H.
Qed.


End HonestResults.

(** * The test engines *)

Lemma BADADDR64_value : BADADDR64 = 18446744073709551615.
Proof. reflexivity. Qed.

Ltac zbool :=
  repeat match goal with
         | H : context [?a <=? ?b] |- _ => destruct (Z.leb_spec a b)
         | H : context [?a <? ?b] |- _ => destruct (Z.ltb_spec a b)
         | H : context [?a =? ?b] |- _ => destruct (Z.eqb_spec a b)
         | |- context [?a <=? ?b] => destruct (Z.leb_spec a b)
         | |- context [?a <? ?b] => destruct (Z.ltb_spec a b)
         | |- context [?a =? ?b] => destruct (Z.eqb_spec a b)
         end;
  cbn in *.

Ltac mini_cases s :=
  destruct s as [[] []];
  cbn [MiniDB get_func get_func_attr_start first_func_chunk Chunks
       find_func_end find_func_bounds del_items create_insn remove_fchunk
       add_func del_func BADADDR lay frozen fst snd] in *;
  unfold mini_entry, mini_chunks, mini_add, mini_del, mini_owner, in_chunks,
    in_range in *;
  cbn [lay frozen negb andb fst snd] in *.

Ltac mini_done :=
  zbool; subst; cbn in *;
  try rewrite BADADDR64_value in *;
  try solve [ reflexivity | discriminate | lia | congruence | tauto
            | left; reflexivity | left; congruence
            | right; split; [reflexivity | congruence]
            | right; split; congruence
            | split; intros; congruence ].

Lemma MiniDB_honest : Honest MiniDB.
Proof.
  constructor.
  - reflexivity.
  - reflexivity.
  - intros s x g H. mini_cases s; split; mini_done; injection H as <-; mini_done.
  - intros s o c H. mini_cases s; mini_done;
      repeat (destruct H as [<- | H]; mini_done).
  - intros s x o H. mini_cases s; mini_done; injection H as <-; mini_done.
  - reflexivity.
  - reflexivity.
  - reflexivity.
  - reflexivity.
  - intros. left. reflexivity.
  - intros s a x H. mini_cases s; mini_done.
  - intros s a H. split; [|intros x]; mini_cases s; mini_done.
  - intros s a x H. mini_cases s; mini_done.
  - intros s a x H. split; intros Hx; mini_cases s; mini_done.
Qed.

(** ** Runs on the small function table *)

(** C2 on the table with one function [100, 110): asking for 100 again. *)
Lemma force_function_already_start_witness :
  is_function_start MiniDB (mkMini A_long false) 100 = true /\
  force_function MiniDB 0 100 (mkWorld (E:=MiniDB) (mkMini A_long false) []) =
  Some (true, mkWorld (E:=MiniDB) (mkMini A_long false) []).
Proof.
  split; [reflexivity|].
  apply (force_function_already_start MiniDB). reflexivity.
Defined.

(** C7 on the table with one function [100, 110): asking for 105. *)
Lemma destructive_path_success_witness :
  force_function MiniDB 1 105 (mkWorld (E:=MiniDB) (mkMini A_long false) []) =
  Some (true,
        mkWorld (E:=MiniDB) (mkMini A_short_B false)
          ([FindFuncEnd 105; RemoveFchunk 105 105] ++
           [AddFunc 105; DelFunc 100; AddFunc 105; AddFunc 100])).
Proof.
  apply (destructive_path_success MiniDB 1 105 100
           (mkWorld (E:=MiniDB) (mkMini A_long false) [])
           (mkWorld (E:=MiniDB) (mkMini A_long false)
                    [FindFuncEnd 105; RemoveFchunk 105 105])
           (mkMini A_long false) (mkMini Empty false)
           (mkMini B_only false) (mkMini A_short_B false));
    try reflexivity.
  cbn. lia.
Defined.

(** C8 on the same table when the engine refuses to create a function at
    100 again. *)
Lemma destructive_path_rollback_witness :
  exists w4,
    recreate_both MiniDB 105 100 [(100, 110)]
      (mkWorld (E:=MiniDB) (mkMini Empty true)
         ([FindFuncEnd 105; RemoveFchunk 105 105] ++ [AddFunc 105; DelFunc 100]))
    = Some (false, w4) /\
    force_function MiniDB 1 105 (mkWorld (E:=MiniDB) (mkMini A_long true) []) =
    Some (false,
          mkWorld (E:=MiniDB)
            (snd (add_func MiniDB (undo_state MiniDB (db w4) [(100, 110)]) 100))
            (log w4 ++ undo_calls [(100, 110)] ++ [AddFunc 100])).
Proof.
  apply (destructive_path_rollback MiniDB 1 105 100
           (mkWorld (E:=MiniDB) (mkMini A_long true) [])
           (mkWorld (E:=MiniDB) (mkMini A_long true)
                    [FindFuncEnd 105; RemoveFchunk 105 105])
           (mkMini A_long true) (mkMini Empty true));
    try reflexivity.
  - cbn. lia.
  - right. left. split; reflexivity.
Defined.

(** C10 on the same run. *)
Lemma false_ends_with_restore_attempt_witness :
  exists w1 calls,
    log w1 = [] ++ calls /\
    restore_original MiniDB 100 w1 =
    Some (false,
          mkWorld (E:=MiniDB) (mkMini B_only true)
            [FindFuncEnd 105; RemoveFchunk 105 105; AddFunc 105; DelFunc 100;
             AddFunc 105; AddFunc 100; DelFunc 100; AddFunc 100]) /\
    mkWorld (E:=MiniDB) (mkMini B_only true)
      [FindFuncEnd 105; RemoveFchunk 105 105; AddFunc 105; DelFunc 100;
       AddFunc 105; AddFunc 100; DelFunc 100; AddFunc 100] =
    mkWorld (snd (add_func MiniDB (db w1) 100)) (log w1 ++ [AddFunc 100]).
Proof.
  apply (false_ends_with_restore_attempt MiniDB 1 105 100
           (mkWorld (E:=MiniDB) (mkMini A_long true) [])).
  - reflexivity.
  - cbn. lia.
  - reflexivity.
Defined.

(** C1: the same run answers False, and 105 is a function start in the
    database it leaves: the function created at 105 is not at a chunk start
    of the snapshot, so the rollback does not delete it. *)
Lemma false_although_function_start :
  is_function_start MiniDB (mkMini A_long true) 105 = false /\
  force_function MiniDB 1 105 (mkWorld (E:=MiniDB) (mkMini A_long true) []) =
  Some (false,
        mkWorld (E:=MiniDB) (mkMini B_only true)
          [FindFuncEnd 105; RemoveFchunk 105 105; AddFunc 105; DelFunc 100;
           AddFunc 105; AddFunc 100; DelFunc 100; AddFunc 100]) /\
  is_function_start MiniDB (mkMini B_only true) 105 = true.
Proof. repeat split. Qed.

(** C1, as amended, on the table that lets 100 be created again. *)
Lemma true_means_function_start_witness :
  Honest MiniDB /\
  is_function_start MiniDB (mkMini A_long false) 105 = false /\
  force_function MiniDB 1 105 (mkWorld (E:=MiniDB) (mkMini A_long false) []) =
  Some (true,
        mkWorld (E:=MiniDB) (mkMini A_short_B false)
          [FindFuncEnd 105; RemoveFchunk 105 105; AddFunc 105; DelFunc 100;
           AddFunc 105; AddFunc 100]) /\
  is_function_start MiniDB (mkMini A_short_B false) 105 = true.
Proof.
  split; [exact MiniDB_honest|]. split; [reflexivity|]. split; [reflexivity|].
  apply (true_means_function_start MiniDB MiniDB_honest 1 105
           (mkWorld (E:=MiniDB) (mkMini A_long false) [])
           (mkWorld (E:=MiniDB) (mkMini A_short_B false)
              [FindFuncEnd 105; RemoveFchunk 105 105; AddFunc 105; DelFunc 100;
               AddFunc 105; AddFunc 100]));
    reflexivity.
Defined.

(** C5, as amended, on the run that rolls back: [100, 105) is left without
    an owner, five addresses out of the ten of the original chunk. *)
Lemma unowned_within_original_chunks_witness :
  Honest MiniDB /\
  is_function_start MiniDB (mkMini A_long true) 105 = false /\
  force_function MiniDB 1 105 (mkWorld (E:=MiniDB) (mkMini A_long true) []) =
  Some (false,
        mkWorld (E:=MiniDB) (mkMini B_only true)
          [FindFuncEnd 105; RemoveFchunk 105 105; AddFunc 105; DelFunc 100;
           AddFunc 105; AddFunc 100; DelFunc 100; AddFunc 100]) /\
  (count_if (newly_unowned (E:=MiniDB) (mkMini A_long true) (mkMini B_only true))
     low_addresses <=
   count_if (in_chunks (Chunks MiniDB (mkMini A_long true)
                          (first_func_chunk MiniDB (mkMini A_long true) 105)))
     low_addresses)%nat.
Proof.
  split; [exact MiniDB_honest|]. split; [reflexivity|]. split; [reflexivity|].
  apply (unowned_within_original_chunks MiniDB MiniDB_honest 1 105
           (mkWorld (E:=MiniDB) (mkMini A_long true) [])
           (mkWorld (E:=MiniDB) (mkMini B_only true)
              [FindFuncEnd 105; RemoveFchunk 105 105; AddFunc 105; DelFunc 100;
               AddFunc 105; AddFunc 100; DelFunc 100; AddFunc 100])
           false low_addresses);
    reflexivity.
Defined.


(** ** Runs on the engines that always answer the same *)

Lemma never_resolved_out_of_fuel (fuel : nat) (w : World (ConstDB never_resolved)) :
  _fix_unrecognized_function_insns (ConstDB never_resolved) fuel 4096 w = None.
Proof.
  revert w. induction fuel as [|fuel IH]; intros w; [reflexivity|].
  cbn [_fix_unrecognized_function_insns].
  unfold call_find_func_end, call_find_func_bounds, call_del_items,
    call_create_insn, _log.
  rewrite bind_call. cbn [ConstDB find_func_end BADADDR fst snd
                            never_resolved ans_find_func_end].
  rewrite Z.eqb_refl, bind_call.
  cbn [ConstDB find_func_bounds fst snd never_resolved ans_bounds_end_ea].
  cbn [Z.eqb]. rewrite bind_query, bind_ret, bind_call, bind_call.
  cbn [ConstDB create_insn fst snd never_resolved ans_create_insn Z.eqb].
  apply IH.
Qed.

Lemma never_resolved_force_function
      (fuel : nat) (w : World (ConstDB never_resolved)) :
  force_function (ConstDB never_resolved) fuel 4096 w = None.
Proof.
  unfold force_function. rewrite bind_query.
  change (is_function_start (ConstDB never_resolved) (db w) 4096) with false.
  cbv iota. unfold _convert_address_to_function. rewrite bind_query.
  apply bind_None. unfold fix_or_detach, call_find_func_end.
  rewrite bind_call.
  cbn [ConstDB find_func_end BADADDR fst snd never_resolved ans_find_func_end].
  rewrite Z.eqb_refl. apply bind_None. apply never_resolved_out_of_fuel.
Qed.

(** C3.  The engine never finds a function end, always reports the item at
    0x1008 and always lets it be undefined and made an instruction.  Then
    no amount of fuel lets the recovery loop return, and none lets
    [force_function] return: the loop has no iteration bound. *)
Lemma recovery_loop_unbounded :
  ~ (exists fuel r,
       _fix_unrecognized_function_insns (ConstDB never_resolved) fuel 4096
         (mkWorld (E:=ConstDB never_resolved) tt []) = Some r) /\
  ~ (exists fuel r,
       force_function (ConstDB never_resolved) fuel 4096
         (mkWorld (E:=ConstDB never_resolved) tt []) = Some r).
Proof.
  split; intros (fuel & r & H).
  - rewrite never_resolved_out_of_fuel in H. discriminate H.
  - rewrite never_resolved_force_function in H. discriminate H.
Qed.

(** C3, as amended: on the small table the recovery loop stops at its first
    round, because the bounds search reports item 0. *)
Lemma loops_end_witness :
  _fix_unrecognized_function_insns MiniDB 1 200
    (mkWorld (E:=MiniDB) (mkMini A_long false) []) =
  Some (false, mkWorld (E:=MiniDB) (mkMini A_long false)
                 [FindFuncEnd 200; FindFuncBounds 200]) /\
  recovery_exit MiniDB 200 false (mkMini A_long false).
Proof.
  split; [reflexivity|].
  exact (proj2 (loops_end MiniDB 200
                  (mkWorld (E:=MiniDB) (mkMini A_long false) []))
           1%nat false
           (mkWorld (E:=MiniDB) (mkMini A_long false)
              [FindFuncEnd 200; FindFuncBounds 200])
           eq_refl).
Defined.

(** When the chunk is always reported as still there, the removal loop
    stops after its 1024 calls and the creation is tried all the same. *)
Example chunk_always_present_stops_at_1024 :
  exists w',
    force_function (ConstDB chunk_always_present) 0 4096
      (mkWorld (E:=ConstDB chunk_always_present) tt []) = Some (false, w') /\
    log w' = FindFuncEnd 4096 :: repeat (RemoveFchunk 4096 4096) 1024
             ++ [AddFunc 4096].
Proof. eexists. split; vm_compute; reflexivity. Qed.

(** C4.  No function end is found and the bounds search reports item 0, so
    the recovery loop answers False; the conversion still calls
    [add_func(4096)], which succeeds, and [force_function] answers True. *)
Lemma failed_recovery_then_success :
  _fix_unrecognized_function_insns (ConstDB no_item_but_creates) 1 4096
    (mkWorld (E:=ConstDB no_item_but_creates) tt [FindFuncEnd 4096]) =
  Some (false,
        mkWorld (E:=ConstDB no_item_but_creates) tt
          [FindFuncEnd 4096; FindFuncEnd 4096; FindFuncBounds 4096]) /\
  force_function (ConstDB no_item_but_creates) 1 4096
    (mkWorld (E:=ConstDB no_item_but_creates) tt []) =
  Some (true,
        mkWorld (E:=ConstDB no_item_but_creates) tt
          [FindFuncEnd 4096; FindFuncEnd 4096; FindFuncBounds 4096;
           AddFunc 4096]).
Proof. split; reflexivity. Qed.

(** C4, as amended, on the same engine. *)
Lemma failed_recovery_still_creates_witness :
  fst (find_func_end (ConstDB no_item_but_creates) tt 4096) = BADADDR64 /\
  fst (add_func (ConstDB no_item_but_creates) tt 4096) = true /\
  _convert_address_to_function (ConstDB no_item_but_creates) 1 4096
    (mkWorld (E:=ConstDB no_item_but_creates) tt []) =
  Some (true,
        mkWorld (E:=ConstDB no_item_but_creates) tt
          ([FindFuncEnd 4096; FindFuncEnd 4096; FindFuncBounds 4096]
           ++ [AddFunc 4096])).
Proof.
  split; [reflexivity|]. split; [reflexivity|].
  exact (proj2 (proj2
           (failed_recovery_still_creates (ConstDB no_item_but_creates) 1 4096
              (mkWorld (E:=ConstDB no_item_but_creates) tt [])
              (mkWorld (E:=ConstDB no_item_but_creates) tt
                 [FindFuncEnd 4096; FindFuncEnd 4096; FindFuncBounds 4096])
              eq_refl eq_refl))
           eq_refl).
Defined.

(** ** A run on the table with a shared tail *)

(** C5.  F = [100, 110) + [200, 204) and H = [300, 400) + [200, 204); the
    address is 105.  F is deleted, the function at 105 cannot be created,
    and the rollback calls [del_func(200)], which now deletes H.  The call
    answers False; F is created again, and the hundred addresses of
    [300, 400) have lost their owner, where F had fourteen addresses. *)
Lemma rollback_deletes_a_bystander :
  first_func_chunk SharedTailDB (mkShared true true) 105 = 100 /\
  force_function SharedTailDB 1 105
    (mkWorld (E:=SharedTailDB) (mkShared true true) []) =
  Some (false,
        mkWorld (E:=SharedTailDB) (mkShared true false)
          [FindFuncEnd 105; RemoveFchunk 105 105; AddFunc 105; DelFunc 100;
           AddFunc 105; DelFunc 100; DelFunc 200; AddFunc 100]) /\
  count_if (in_chunks (Chunks SharedTailDB (mkShared true true) 100))
    low_addresses = 14%nat /\
  count_if (newly_unowned (E:=SharedTailDB) (mkShared true true)
              (mkShared true false)) low_addresses = 100%nat.
Proof. repeat split; vm_compute; reflexivity. Qed.

(** * Address ranges *)

Lemma steps_cons (start step : Z) (n : nat) :
  steps start step (S n) = start :: steps (start + step) step n.
Proof.
  unfold steps. cbn [seq map]. f_equal; [lia|].
  rewrite <- seq_shift, map_map. apply map_ext. intros i. lia.
Qed.

Lemma steps_snoc (start step : Z) (n : nat) :
  steps start step (S n) = steps start step n ++ [start + Z.of_nat n * step].
Proof. unfold steps. rewrite seq_S, map_app. reflexivity. Qed.

Lemma steps_length (start step : Z) (n : nat) :
  length (steps start step n) = n.
Proof. unfold steps. rewrite length_map, length_seq. reflexivity. Qed.

Lemma steps_In (start step : Z) (n : nat) (a : Z) :
  In a (steps start step n) <->
  exists i, (i < n)%nat /\ a = start + Z.of_nat i * step.
Proof.
  unfold steps. rewrite in_map_iff. split.
  - intros (i & <- & Hi). apply in_seq in Hi. exists i. split; [lia | reflexivity].
  - intros (i & Hi & ->). exists i. split; [reflexivity|]. apply in_seq. lia.
Qed.

(** The loop leaves at the first address that is not below [end_full]. *)
Lemma addresses_while_run (end_full step : Z) (n : nat) :
  forall addr fuel,
    (forall i, (i < n)%nat -> addr + Z.of_nat i * step < end_full) ->
    end_full <= addr + Z.of_nat n * step ->
    (n < fuel)%nat ->
    _addresses_while fuel addr end_full step =
    Some (steps addr step n, addr + Z.of_nat n * step).
Proof.
  induction n as [|n IH]; intros addr fuel Hlt Hge Hfuel;
    (destruct fuel as [|fuel]; [lia|]); cbn [_addresses_while].
  - replace (addr <? end_full) with false by (symmetry; apply Z.ltb_ge; lia).
    cbn [steps seq map]. f_equal. f_equal. lia.
  - replace (addr <? end_full) with true
      by (symmetry; apply Z.ltb_lt; specialize (Hlt 0%nat); lia).
    rewrite (IH (addr + step) fuel).
    + rewrite steps_cons. f_equal. f_equal. lia.
    + intros i Hi. specialize (Hlt (S i)). lia.
    + lia.
    + lia.
Qed.

Section WholeElements.

Variables start end_ step : Z.
Hypothesis step_pos : 1 <= step.

Let n := whole_elements start end_ step.

Lemma whole_elements_fit (i : nat) :
  (i < n)%nat -> start + Z.of_nat i * step + step <= end_.
Proof.
  subst n. unfold whole_elements. intros Hi.
  assert (Hq : 0 < (end_ - start) / step) by lia.
  pose proof (Z.mul_div_le (end_ - start) step ltac:(lia)) as Hle.
  assert (Z.of_nat i + 1 <= (end_ - start) / step) by lia.
  nia.
Qed.

Lemma whole_elements_maximal : end_ < start + Z.of_nat n * step + step.
Proof.
  subst n. unfold whole_elements.
  pose proof (Z.div_mod (end_ - start) step ltac:(lia)) as Hdm.
  pose proof (Z.mod_pos_bound (end_ - start) step ltac:(lia)) as Hmod.
  destruct (Z.le_gt_cases 0 ((end_ - start) / step)) as [Hq | Hq].
  - rewrite Z2Nat.id by exact Hq. nia.
  - replace (Z.of_nat (Z.to_nat ((end_ - start) / step))) with 0 by lia. nia.
Qed.

Lemma whole_elements_exact :
  start + Z.of_nat n * step = end_ <->
  start <= end_ /\ (end_ - start) mod step = 0.
Proof.
  subst n. unfold whole_elements.
  pose proof (Z.div_mod (end_ - start) step ltac:(lia)) as Hdm.
  pose proof (Z.mod_pos_bound (end_ - start) step ltac:(lia)) as Hmod.
  destruct (Z.le_gt_cases 0 ((end_ - start) / step)) as [Hq | Hq].
  - rewrite Z2Nat.id by exact Hq. split; [intros H | intros [H1 H2]]; nia.
  - replace (Z.of_nat (Z.to_nat ((end_ - start) / step))) with 0 by lia. split; [intros H | intros [H1 H2]]; nia.
Qed.

Lemma whole_elements_short :
  start + Z.of_nat n * step < end_ <->
  start < end_ /\ (end_ - start) mod step <> 0.
Proof.
  subst n. unfold whole_elements.
  pose proof (Z.div_mod (end_ - start) step ltac:(lia)) as Hdm.
  pose proof (Z.mod_pos_bound (end_ - start) step ltac:(lia)) as Hmod.
  destruct (Z.le_gt_cases 0 ((end_ - start) / step)) as [Hq | Hq].
  - rewrite Z2Nat.id by exact Hq. split; [intros H | intros [H1 H2]]; nia.
  - replace (Z.of_nat (Z.to_nat ((end_ - start) / step))) with 0 by lia. split; [intros H | intros [H1 H2]]; nia.
Qed.

End WholeElements.

(** What [_addresses] does for a step of at least 1. *)
Lemma addresses_run
        (fuel : nat) (start end_ step : Z) (partial aligned : bool) :
  1 <= step ->
  (whole_elements start end_ step < fuel)%nat ->
  _addresses fuel start end_ step partial aligned =
  Some (if (start <=? end_) && ((end_ - start) mod step =? 0) then
          (steps start step (whole_elements start end_ step), Done)
        else if aligned then
          (steps start step (whole_elements start end_ step),
           Raised (AlignmentError end_))
        else if (start <? end_) && partial then
          (steps start step (S (whole_elements start end_ step)), Done)
        else (steps start step (whole_elements start end_ step), Done)).
Proof.
  intros Hstep Hfuel. unfold _addresses. cbv zeta.
  rewrite (addresses_while_run _ _ (whole_elements start end_ step));
    [| intros i Hi; pose proof (whole_elements_fit start end_ step Hstep i Hi); lia
     | pose proof (whole_elements_maximal start end_ step Hstep); lia
     | exact Hfuel ].
  pose proof (whole_elements_exact start end_ step Hstep) as Hexact.
  pose proof (whole_elements_short start end_ step Hstep) as Hshort.
  destruct (Z.eqb_spec (start + Z.of_nat (whole_elements start end_ step) * step)
                       end_) as [Heq | Hne]; cbn [negb].
  - apply Hexact in Heq. destruct Heq as [Hle Hmod].
    apply Z.leb_le in Hle. apply Z.eqb_eq in Hmod. rewrite Hle, Hmod.
    reflexivity.
  - replace ((start <=? end_) && ((end_ - start) mod step =? 0)) with false.
    2:{ symmetry. apply andb_false_iff.
        destruct (Z.leb_spec start end_) as [Hle | Hgt]; [|left; reflexivity].
        right. apply Z.eqb_neq. intros Hmod. apply Hne, Hexact. auto. }
    destruct aligned; [reflexivity|].
    destruct (Z.ltb_spec (start + Z.of_nat (whole_elements start end_ step) * step)
                         end_) as [Hlt | Hge].
    + apply Hshort in Hlt. destruct Hlt as [Hlt _]. apply Z.ltb_lt in Hlt.
      rewrite Hlt. cbn [andb]. destruct partial; [|reflexivity].
      rewrite steps_snoc. reflexivity.
    + cbn [andb].
      destruct (Z.ltb_spec start end_) as [Hlt | Hge']; [|reflexivity].
      destruct partial; [|reflexivity]. exfalso.
      assert (Hs : start + Z.of_nat (whole_elements start end_ step) * step < end_);
        [|lia].
      apply Hshort. split; [exact Hlt|]. intros Hmod. apply Hne, Hexact.
      split; [lia | exact Hmod].
Qed.

(** X1.  For a step of at least 1, [_addresses] ends, and what it does is
    fixed by the whole elements that fit: it yields their addresses; when
    the end is not on an element boundary (or is below the start) it then
    raises AlignmentError if [aligned], and otherwise yields the address of
    the cut element if [partial] and that address is below the end. *)
Theorem addresses_closed_form
        (fuel : nat) (start end_ step : Z) (partial aligned : bool) :
  1 <= step ->
  (whole_elements start end_ step < fuel)%nat ->
  _addresses fuel start end_ step partial aligned =
  Some (if (start <=? end_) && ((end_ - start) mod step =? 0) then
          (steps start step (whole_elements start end_ step), Done)
        else if aligned then
          (steps start step (whole_elements start end_ step),
           Raised (AlignmentError end_))
        else if (start <? end_) && partial then
          (steps start step (S (whole_elements start end_ step)), Done)
        else (steps start step (whole_elements start end_ step), Done)).
Proof. exact (addresses_run fuel start end_ step partial aligned). Qed.

Lemma addresses_closed_form_witness :
  1 <= 4 /\ (whole_elements 100 110 4 < 3)%nat /\
  _addresses 3 100 110 4 true false = Some ([100; 104; 108], Done).
Proof.
  split; [lia|]. split; [vm_compute; lia|].
  apply (addresses_closed_form 3 100 110 4 true false); [lia | vm_compute; lia].
Defined.

(** X2.  With [aligned], [_addresses] raises AlignmentError(end) exactly
    when the end is below the start or is not a whole number of steps away
    from it; the whole elements before the end have been yielded by
    then. *)
Theorem addresses_aligned
        (fuel : nat) (start end_ step : Z) (partial : bool) :
  1 <= step ->
  (whole_elements start end_ step < fuel)%nat ->
  exists e,
    _addresses fuel start end_ step partial true =
    Some (steps start step (whole_elements start end_ step), e) /\
    (e = Done <-> start <= end_ /\ (end_ - start) mod step = 0) /\
    (e = Raised (AlignmentError end_) <->
     end_ < start \/ (end_ - start) mod step <> 0).
Proof.
  intros Hstep Hfuel. rewrite addresses_run by assumption.
  destruct (Z.leb_spec start end_) as [Hle | Hgt]; cbn [andb].
  - destruct (Z.eqb_spec ((end_ - start) mod step) 0) as [Hmod | Hmod].
    + exists Done. split; [reflexivity|]. split; split.
      * intros _. split; assumption.
      * reflexivity.
      * discriminate.
      * intros [H | H]; [lia | contradiction].
    + exists (Raised (AlignmentError end_)). split; [reflexivity|].
      split; split.
      * discriminate.
      * intros [_ H]. contradiction.
      * intros _. right. exact Hmod.
      * reflexivity.
  - exists (Raised (AlignmentError end_)). split; [reflexivity|].
    split; split.
    + discriminate.
    + intros [H _]. lia.
    + intros _. left. exact Hgt.
    + reflexivity.
Qed.

Lemma addresses_aligned_witness :
  exists e,
    _addresses 1 10 6 2 false true =
    Some (steps 10 2 (whole_elements 10 6 2), e) /\
    (e = Done <-> 10 <= 6 /\ (6 - 10) mod 2 = 0) /\
    (e = Raised (AlignmentError 6) <-> 6 < 10 \/ (6 - 10) mod 2 <> 0).
Proof.
  apply (addresses_aligned 1 10 6 2 false); [lia | vm_compute; lia].
Defined.

(** X3.  Whatever the fuel, when [_addresses] ends its yields are start,
    start + step, start + 2 step, ... in that order, every one of them lies
    in [start, end), and unless [partial] is set the whole element fits
    below the end. *)
Theorem addresses_in_range
        (fuel : nat) (start end_ step : Z) (partial aligned : bool)
        (ys : list Z) (e : ending) :
  1 <= step ->
  _addresses fuel start end_ step partial aligned = Some (ys, e) ->
  (exists n, ys = steps start step n) /\
  (forall a, In a ys -> start <= a < end_) /\
  (partial = false -> forall a, In a ys -> a + step <= end_).
Proof.
  intros Hstep Hrun.
  assert (Hfuel : (whole_elements start end_ step < fuel)%nat).
  { destruct (Nat.lt_ge_cases (whole_elements start end_ step) fuel)
      as [H | H]; [exact H|]. exfalso.
    unfold _addresses in Hrun. cbv zeta in Hrun.
    assert (Hnone : forall n addr,
               (forall i, (i < n)%nat ->
                          addr + Z.of_nat i * step < end_ - step + 1) ->
               _addresses_while n addr (end_ - step + 1) step = None).
    { induction n as [|n IH]; intros addr Hlt; [reflexivity|].
      cbn [_addresses_while].
      replace (addr <? end_ - step + 1) with true
        by (symmetry; apply Z.ltb_lt; specialize (Hlt 0%nat); lia).
      rewrite IH; [reflexivity|].
      intros i Hi. specialize (Hlt (S i)). lia. }
    rewrite Hnone in Hrun; [discriminate|].
    intros i Hi.
    pose proof (whole_elements_fit start end_ step Hstep i ltac:(lia)). lia. }
  rewrite addresses_run in Hrun by assumption.
  pose proof (whole_elements_short start end_ step Hstep) as Hshort.
  assert (Hwhole : forall a,
             In a (steps start step (whole_elements start end_ step)) ->
             start <= a /\ a + step <= end_).
  { intros a Ha. apply steps_In in Ha. destruct Ha as (i & Hi & ->).
    pose proof (whole_elements_fit start end_ step Hstep i Hi). nia. }
  assert (Hweak : forall a, start <= a /\ a + step <= end_ -> start <= a < end_)
    by (intros; lia).
  assert (Hfit : forall a,
             In a (steps start step (whole_elements start end_ step)) ->
             a + step <= end_) by (intros a Ha; apply Hwhole, Ha).
  assert (Hin : forall a,
             In a (steps start step (whole_elements start end_ step)) ->
             start <= a < end_) by (intros a Ha; apply Hweak, Hwhole, Ha).
  destruct ((start <=? end_) && ((end_ - start) mod step =? 0)) eqn:Hal.
  { injection Hrun as <- <-. split; [eexists; reflexivity|].
    split; [exact Hin | intros _; exact Hfit]. }
  destruct aligned.
  { injection Hrun as <- <-. split; [eexists; reflexivity|].
    split; [exact Hin | intros _; exact Hfit]. }
  destruct (Z.ltb_spec start end_) as [Hlt | Hge]; cbn [andb] in Hrun.
  - destruct partial.
    + injection Hrun as <- <-. split; [eexists; reflexivity|].
      split; [|discriminate].
      intros a Ha. rewrite steps_snoc in Ha. apply in_app_or in Ha.
      destruct Ha as [Ha | [<- | []]]; [apply Hweak, Hwhole, Ha|].
      destruct (Z.eqb_spec ((end_ - start) mod step) 0) as [Hmod | Hmod].
      * exfalso. apply andb_false_iff in Hal.
        destruct Hal as [Hal | Hal];
          [apply Z.leb_gt in Hal; lia | discriminate Hal].
      * pose proof (proj2 Hshort (conj Hlt Hmod)). nia.
    + injection Hrun as <- <-. split; [eexists; reflexivity|].
      split; [exact Hin | intros _; exact Hfit].
  - injection Hrun as <- <-. split; [eexists; reflexivity|].
    split; [exact Hin | intros _; exact Hfit].
Qed.

Lemma addresses_in_range_witness :
  (exists n, [100; 104; 108] = steps 100 4 n) /\
  (forall a, In a [100; 104; 108] -> 100 <= a < 110) /\
  (true = false -> forall a, In a [100; 104; 108] -> a + 4 <= 110).
Proof.
  apply (addresses_in_range 3 100 110 4 true false [100; 104; 108] Done);
    [lia | reflexivity].
Defined.

(** * [Addresses] and [_mapped_addresses] *)

Section WordsFacts.

Variable I : Image.

(** X4.  With [length] (and no [end], or the [end] that agrees with it),
    [Addresses] yields exactly [length] addresses, start + i * step, and
    ends without AlignmentError whatever [aligned] and [partial] are. *)
Theorem Addresses_by_length
        (fuel : nat) (start step len : Z) (end_ : option Z)
        (partial aligned allow_unmapped : bool) :
  1 <= step ->
  0 <= len ->
  end_ = None \/ end_ = Some (start + len * step) ->
  (Z.to_nat len < fuel)%nat ->
  Addresses I fuel start end_ step (Some len) partial aligned true
            allow_unmapped =
  Some (Returns (steps start step (Z.to_nat len), Done)).
Proof.
  intros Hstep Hlen Hend Hfuel. unfold Addresses.
  replace (step <? 1) with false by (symmetry; apply Z.ltb_ge; lia).
  assert (Hn : whole_elements start (start + len * step) step = Z.to_nat len).
  { unfold whole_elements. f_equal.
    replace (start + len * step - start) with (len * step) by lia.
    apply Z.div_mul. lia. }
  assert (Hrun : _addresses fuel start (start + len * step) step partial aligned
                 = Some (steps start step (Z.to_nat len), Done)).
  { rewrite addresses_run; [|exact Hstep | rewrite Hn; exact Hfuel].
    rewrite Hn.
    replace (start <=? start + len * step) with true
      by (symmetry; apply Z.leb_le; nia).
    replace (start + len * step - start) with (len * step) by lia.
    rewrite Z.mod_mul by lia. reflexivity. }
  destruct Hend as [-> | ->].
  - rewrite Hrun. reflexivity.
  - rewrite Z.eqb_refl. cbn [negb]. rewrite Hrun. reflexivity.
Qed.

(** X5.  [Addresses] raises from the call itself, before any address is
    produced, in three cases and no other: the step is below 1; neither
    [end] nor [length] is given; both are given and disagree.  The error is
    a ValueError. *)
Theorem Addresses_raises_iff
        (fuel : nat) (start step : Z) (end_ length : option Z)
        (partial aligned unmapped allow_unmapped : bool) (e : exn) :
  Addresses I fuel start end_ step length partial aligned unmapped
            allow_unmapped = Some (Raises e) <->
  e = ValueError /\
  (step < 1 \/
   (end_ = None /\ length = None) \/
   (exists e' len, end_ = Some e' /\ length = Some len /\
                   e' <> start + len * step)).
Proof.
  unfold Addresses. destruct (Z.ltb_spec step 1) as [Hstep | Hstep].
  - split; [intros [= <-]; auto | intros [-> _]; reflexivity].
  - assert (Hgen : forall e0,
               match _addresses fuel start e0 step partial aligned with
               | Some addresses =>
                   if unmapped then Some (Returns addresses)
                   else Some (Returns (_mapped_addresses I addresses step
                                         partial allow_unmapped))
               | None => None
               end <> Some (Raises e)).
    { intros e0. destruct (_addresses fuel start e0 step partial aligned);
        [destruct unmapped|]; discriminate. }
    destruct length as [len|], end_ as [e'|].
    + destruct (Z.eqb_spec e' (start + len * step)) as [Heq | Hne]; cbn [negb].
      * split; [intros H; exfalso; exact (Hgen _ H)|].
        intros [_ [H | [[H _] | (e1 & l1 & [= <-] & [= <-] & H)]]];
          [lia | discriminate | contradiction].
      * split; [intros [= <-]|intros [-> _]; reflexivity].
        split; [reflexivity|]. right. right. exists e', len. auto.
    + split; [intros H; exfalso; exact (Hgen _ H)|].
      intros [_ [H | [[_ H] | (e1 & l1 & H & _)]]];
        [lia | discriminate | discriminate].
    + split; [intros H; exfalso; exact (Hgen _ H)|].
      intros [_ [H | [[H _] | (e1 & l1 & _ & H & _)]]];
        [lia | discriminate | discriminate].
    + split; [intros [= <-]; auto | intros [-> _]; reflexivity].
Qed.

Lemma is_mapped_byte (a : Z) : is_mapped I a 1 true = Returns (is_loaded I a).
Proof. unfold is_mapped. cbn. rewrite andb_true_r. reflexivity. Qed.

Lemma mapped_addresses_for_cons
      (step : Z) (partial allow_unmapped : bool) (addr : Z) (rest : list Z)
      (inner : ending) :
  _mapped_addresses_for I step partial allow_unmapped (addr :: rest) inner =
  let tail := _mapped_addresses_for I step partial allow_unmapped rest inner in
  if sufficiently_mapped I step partial addr then (addr :: fst tail, snd tail)
  else if negb allow_unmapped then ([], Done)
  else tail.
Proof.
  cbn [_mapped_addresses_for]. rewrite !is_mapped_byte. cbv zeta.
  unfold sufficiently_mapped.
  destruct (_mapped_addresses_for I step partial allow_unmapped rest inner).
  reflexivity.
Qed.

(** X6.  Without [allow_unmapped], [_mapped_addresses] yields the addresses
    up to the first one that is not sufficiently mapped and stops there with
    a normal end: what the underlying generator would have done next, an
    AlignmentError included, does not happen.  When every address passes,
    it ends as the underlying generator ends. *)
Theorem mapped_addresses_stops_at_gap
        (step : Z) (partial : bool) (addresses ys : list Z) (inner e : ending) :
  _mapped_addresses I (addresses, inner) step partial false = (ys, e) ->
  exists rest,
    addresses = ys ++ rest /\
    forallb (sufficiently_mapped I step partial) ys = true /\
    ((rest = [] /\ e = inner) \/
     (exists a rest',
        rest = a :: rest' /\ sufficiently_mapped I step partial a = false /\
        e = Done)).
Proof.
  unfold _mapped_addresses. cbn [fst snd]. revert ys e.
  induction addresses as [|addr rest IH]; intros ys e.
  - intros [= <- <-]. exists []. repeat split. left. auto.
  - rewrite mapped_addresses_for_cons. cbv zeta.
    destruct (sufficiently_mapped I step partial addr) eqn:Hok.
    + destruct (_mapped_addresses_for I step partial false rest inner)
        as [ys' e'] eqn:Htail.
      intros [= <- <-]. destruct (IH ys' e' eq_refl) as (r & -> & Hall & Hend).
      exists r. cbn [forallb app]. rewrite Hok, Hall. repeat split. exact Hend.
    + cbn [negb]. intros [= <- <-]. exists (addr :: rest). repeat split.
      right. exists addr, rest. auto.
Qed.

(** X7.  With [allow_unmapped], [_mapped_addresses] yields exactly the
    addresses that are sufficiently mapped, in order, skipping the others,
    and ends as the underlying generator ends. *)
Theorem mapped_addresses_filters
        (step : Z) (partial : bool) (addresses : list Z) (inner : ending) :
  _mapped_addresses I (addresses, inner) step partial true =
  (filter (sufficiently_mapped I step partial) addresses, inner).
Proof.
  unfold _mapped_addresses. cbn [fst snd].
  induction addresses as [|addr rest IH]; [reflexivity|].
  rewrite mapped_addresses_for_cons. cbv zeta. rewrite IH. cbn [fst snd filter negb].
  destruct (sufficiently_mapped I step partial addr); reflexivity.
Qed.

(** * Words *)

(** X8.  [read_word] returns a value exactly when the word size is 1, 2, 4
    or 8 and the first and the last byte of the word are loaded; the value
    is the one the getter of that size gives. *)
Theorem read_word_value (ea wordsize v : Z) :
  read_word I ea wordsize = Returns (Some v) <->
  known_wordsize wordsize /\ word_loaded I wordsize ea = true /\
  v = peek I wordsize ea.
Proof.
  unfold read_word, is_mapped, known_wordsize, word_loaded, peek.
  destruct (Z.ltb_spec wordsize 1) as [Hsmall | Hbig].
  - split; [discriminate|]. intros [H _]. lia.
  - destruct (is_loaded I ea && ((wordsize =? 1) || is_loaded I (ea + wordsize - 1)));
      cbn [negb].
    + destruct (Z.eqb_spec wordsize 1); [split; [intros [= <-]|intros (_ & _ & ->)]; auto|].
      destruct (Z.eqb_spec wordsize 2); [split; [intros [= <-]|intros (_ & _ & ->)]; auto|].
      destruct (Z.eqb_spec wordsize 4); [split; [intros [= <-]|intros (_ & _ & ->)]; auto|].
      destruct (Z.eqb_spec wordsize 8); [split; [intros [= <-]|intros (_ & _ & ->)]; auto 6|].
      split; [discriminate|]. intros [H _]. lia.
    + split; [discriminate|]. intros (_ & H & _). discriminate.
Qed.

(** X9.  For any other word size [read_word] never gives a value: it
    raises ValueError when the size is below 1 or the word is loaded, and
    returns None when the word is not loaded.  Size 16, which
    [_read_struct_member_once] asks for, is such a size. *)
Theorem read_word_unknown_size (ea wordsize : Z) :
  ~ known_wordsize wordsize ->
  read_word I ea wordsize =
  if (wordsize <? 1) || word_loaded I wordsize ea then Raises ValueError
  else Returns None.
Proof.
  unfold read_word, is_mapped, known_wordsize, word_loaded. intros Hsize.
  destruct (Z.ltb_spec wordsize 1) as [Hsmall | Hbig]; [reflexivity|].
  cbn [orb].
  destruct (is_loaded I ea && ((wordsize =? 1) || is_loaded I (ea + wordsize - 1)));
    cbn [negb]; [|reflexivity].
  destruct (Z.eqb_spec wordsize 1); [tauto|].
  destruct (Z.eqb_spec wordsize 2); [tauto|].
  destruct (Z.eqb_spec wordsize 4); [tauto|].
  destruct (Z.eqb_spec wordsize 8); [tauto|].
  reflexivity.
Qed.

Lemma read_word_known (ea wordsize : Z) :
  known_wordsize wordsize ->
  read_word I ea wordsize =
  Returns (if word_loaded I wordsize ea then Some (peek I wordsize ea)
           else None).
Proof.
  intros Hk. unfold read_word, is_mapped, word_loaded, peek.
  replace (wordsize <? 1) with false
    by (symmetry; apply Z.ltb_ge; unfold known_wordsize in Hk; lia).
  destruct (is_loaded I ea && ((wordsize =? 1) || is_loaded I (ea + wordsize - 1)));
    cbn [negb]; [|reflexivity].
  destruct Hk as [-> | [-> | [-> | ->]]]; reflexivity.
Qed.

Lemma Addresses_plain (fuel : nat) (start end_ step : Z) :
  1 <= step ->
  (whole_elements start end_ step < fuel)%nat ->
  Addresses I fuel start (Some end_) step None false false true false =
  Some (Returns (steps start step (whole_elements start end_ step), Done)).
Proof.
  intros Hstep Hfuel. unfold Addresses.
  replace (step <? 1) with false by (symmetry; apply Z.ltb_ge; lia).
  rewrite addresses_run by assumption. rewrite andb_false_r.
  destruct ((start <=? end_) && ((end_ - start) mod step =? 0)); reflexivity.
Qed.

Lemma ReadWords_for_steps
      (wordsize step : Z) (addresses : bool) (n : nat) :
  known_wordsize wordsize ->
  forall start,
  exists m,
    (m <= n)%nat /\
    ReadWords_for I wordsize addresses (steps start step n) Done =
    (map (fun a => word_item addresses (peek I wordsize a) a)
         (steps start step m), Done) /\
    forallb (word_loaded I wordsize) (steps start step m) = true /\
    ((m < n)%nat ->
     word_loaded I wordsize (start + Z.of_nat m * step) = false).
Proof.
  intros Hk. induction n as [|n IH]; intros start.
  - exists 0%nat. repeat split; [lia | lia].
  - rewrite steps_cons. cbn [ReadWords_for]. rewrite (read_word_known _ _ Hk).
    destruct (word_loaded I wordsize start) eqn:Hl.
    + destruct (IH (start + step)) as (m & Hm & Hrun & Hall & Hgap).
      exists (S m). rewrite Hrun, steps_cons. cbn [map forallb].
      rewrite Hl, Hall. repeat split; [lia|].
      intros Hlt. replace (start + Z.of_nat (S m) * step)
        with (start + step + Z.of_nat m * step) by lia.
      apply Hgap. lia.
    + exists 0%nat. repeat split; [lia|]. intros _.
      replace (start + Z.of_nat 0 * step) with start by lia. exact Hl.
Qed.

(** What [ReadWords] does for a step of at least 1 and a known word size. *)
Lemma ReadWords_run
        (fuel : nat) (start end_ step wordsize : Z) (addresses : bool) :
  1 <= step ->
  known_wordsize wordsize ->
  (whole_elements start end_ step < fuel)%nat ->
  exists m,
    (m <= whole_elements start end_ step)%nat /\
    ReadWords I fuel start end_ step wordsize addresses =
    Some (map (fun a => word_item addresses (peek I wordsize a) a)
              (steps start step m), Done) /\
    forallb (word_loaded I wordsize) (steps start step m) = true /\
    ((m < whole_elements start end_ step)%nat ->
     word_loaded I wordsize (start + Z.of_nat m * step) = false).
Proof.
  intros Hstep Hk Hfuel. unfold ReadWords.
  rewrite Addresses_plain by assumption.
  destruct (ReadWords_for_steps wordsize step addresses
              (whole_elements start end_ step) Hk start)
    as (m & Hm & Hrun & Hall & Hgap).
  exists m. rewrite Hrun. auto.
Qed.

(** X10.  For a step of at least 1 and a word size of 1, 2, 4 or 8,
    [ReadWords] never raises.  It reads the words at start, start + step,
    ... for as long as the whole element fits below the end and the first
    and last byte of the word are loaded, and stops at the first word that
    is not loaded; with [addresses] each word comes with the address it was
    read at. *)
Theorem ReadWords_reads_until_gap
        (fuel : nat) (start end_ step wordsize : Z) (addresses : bool) :
  1 <= step ->
  known_wordsize wordsize ->
  (whole_elements start end_ step < fuel)%nat ->
  exists m,
    (m <= whole_elements start end_ step)%nat /\
    ReadWords I fuel start end_ step wordsize addresses =
    Some (map (fun a => word_item addresses (peek I wordsize a) a)
              (steps start step m), Done) /\
    forallb (word_loaded I wordsize) (steps start step m) = true /\
    ((m < whole_elements start end_ step)%nat ->
     word_loaded I wordsize (start + Z.of_nat m * step) = false).
Proof. exact (ReadWords_run fuel start end_ step wordsize addresses). Qed.

(** X11.  With a word size below 1 the ValueError comes from the first
    word only: [ReadWords] over a range that holds no whole element ends
    normally without having looked at the word size, and over any other
    range it raises ValueError before yielding anything. *)
Theorem ReadWords_bad_wordsize
        (fuel : nat) (start end_ step wordsize : Z) (addresses : bool) :
  1 <= step ->
  wordsize < 1 ->
  (whole_elements start end_ step < fuel)%nat ->
  ReadWords I fuel start end_ step wordsize addresses =
  Some ([], if (whole_elements start end_ step =? 0)%nat then Done
            else Raised ValueError).
Proof.
  intros Hstep Hsize Hfuel. unfold ReadWords.
  rewrite Addresses_plain by assumption.
  destruct (whole_elements start end_ step) as [|n]; [reflexivity|].
  rewrite steps_cons. cbn [ReadWords_for Nat.eqb]. unfold read_word, is_mapped.
  replace (wordsize <? 1) with true by (symmetry; apply Z.ltb_lt; lia).
  reflexivity.
Qed.

(** X12.  With the defaults, step and word size both the [WORD_SIZE] that
    [_initialize] has chosen, [ReadWords] never raises: it ends
    normally. *)
Theorem ReadWords_default_ends_normally
        (is_64bit is_32bit : bool) (fuel : nat) (start end_ : Z)
        (addresses : bool) :
  (whole_elements start end_ (_initialize_WORD_SIZE is_64bit is_32bit)
   < fuel)%nat ->
  exists ys,
    ReadWords I fuel start end_
      (_initialize_WORD_SIZE is_64bit is_32bit)
      (_initialize_WORD_SIZE is_64bit is_32bit) addresses = Some (ys, Done).
Proof.
  intros Hfuel.
  assert (Hk : known_wordsize (_initialize_WORD_SIZE is_64bit is_32bit)).
  { unfold known_wordsize, _initialize_WORD_SIZE.
    destruct is_64bit, is_32bit; auto. }
  assert (Hstep : 1 <= _initialize_WORD_SIZE is_64bit is_32bit).
  { unfold known_wordsize in Hk. lia. }
  destruct (ReadWords_run fuel start end_ _ _ addresses
              Hstep Hk Hfuel) as (m & _ & Hrun & _).
  eexists. exact Hrun.
Qed.

(** * Windows of words *)

Lemma deque_append_slide {A} (k : nat) (window : list A) (word : A)
      (rest : list A) :
  length window = k ->
  deque_append k window word ++ rest = skipn 1 (window ++ word :: rest) /\
  length (deque_append k window word) = k.
Proof.
  intros Hlen. unfold deque_append. rewrite length_app. cbn [length].
  replace (length window + 1 - k)%nat with 1%nat by lia.
  destruct window as [|x t]; cbn [app skipn].
  - cbn in Hlen. subst k. split; reflexivity.
  - cbn [length] in Hlen. rewrite <- app_assoc. cbn [app].
    split; [reflexivity|]. rewrite length_app. cbn [length]. lia.
Qed.

Lemma firstn_exact {A} (k : nat) (l r : list A) :
  length l = k -> firstn k (l ++ r) = l.
Proof.
  intros <-. rewrite firstn_app, Nat.sub_diag, firstn_all. cbn [firstn].
  apply app_nil_r.
Qed.

Lemma WindowWords_for_run {A} (k : nat) (wordsize : Z) (inner : ending)
      (rest : list A) :
  forall window addr,
    length window = k ->
    WindowWords_for k wordsize rest inner window addr =
    (map (fun j => (firstn k (skipn (S j) (window ++ rest)),
                    addr + Z.of_nat (S j) * wordsize))
         (seq 0 (length rest)),
     inner).
Proof.
  induction rest as [|word rest IH]; intros window addr Hlen; [reflexivity|].
  cbn [WindowWords_for]. cbv zeta.
  destruct (deque_append_slide k window word rest Hlen) as [Hslide Hlen'].
  rewrite (IH _ _ Hlen'). cbn [length seq map]. f_equal. f_equal.
  - f_equal; [|lia]. rewrite <- Hslide. symmetry.
    apply firstn_exact. exact Hlen'.
  - rewrite <- seq_shift, map_map. apply map_ext. intros j. f_equal; [|lia].
    rewrite Hslide, skipn_skipn. f_equal. f_equal. lia.
Qed.

(** What [WindowWords] does once the first window is full. *)
Lemma WindowWords_run
        (WORD_SIZE : Z) (fuel : nat) (start end_ window_size wordsize : Z)
        (words : list (Z + Z * Z)) (inner : ending) :
  ReadWords I fuel start end_ WORD_SIZE wordsize false = Some (words, inner) ->
  0 <= window_size ->
  (Z.to_nat window_size <= length words)%nat ->
  WindowWords I WORD_SIZE fuel start end_ window_size wordsize =
  Some (map (fun j => (firstn (Z.to_nat window_size) (skipn j words),
                       start + Z.of_nat j * wordsize))
            (seq 0 (S (length words - Z.to_nat window_size))),
        inner).
Proof.
  intros Hread Hsize Hlen. unfold WindowWords. rewrite Hread.
  replace (length words <? Z.to_nat window_size)%nat with false
    by (symmetry; apply Nat.ltb_ge; exact Hlen).
  replace (window_size <? 0) with false by (symmetry; apply Z.ltb_ge; lia).
  rewrite WindowWords_for_run by (apply firstn_length_le; exact Hlen).
  rewrite firstn_skipn, length_skipn. cbn [seq map skipn]. f_equal. f_equal.
  f_equal.
  - f_equal. lia.
  - rewrite <- seq_shift, map_map. reflexivity.
Qed.

(** X13.  Once [window_size] words could be read, [WindowWords] yields one
    window per position: the j-th yield (from 0) shows words j to
    j + window_size - 1 of what [ReadWords] produces and the address
    start + j * wordsize, so the words after the first [window_size] give
    one further window each; it ends as [ReadWords] ends.  The window
    listed is the content of the deque when it is yielded. *)
Theorem WindowWords_slides
        (WORD_SIZE : Z) (fuel : nat) (start end_ window_size wordsize : Z)
        (words : list (Z + Z * Z)) (inner : ending) :
  ReadWords I fuel start end_ WORD_SIZE wordsize false = Some (words, inner) ->
  0 <= window_size ->
  (Z.to_nat window_size <= length words)%nat ->
  WindowWords I WORD_SIZE fuel start end_ window_size wordsize =
  Some (map (fun j => (firstn (Z.to_nat window_size) (skipn j words),
                       start + Z.of_nat j * wordsize))
            (seq 0 (S (length words - Z.to_nat window_size))),
        inner).
Proof.
  exact (WindowWords_run WORD_SIZE fuel start end_ window_size wordsize words inner).
Qed.

Lemma steps_firstn (start step : Z) (k m : nat) :
  (k <= m)%nat -> firstn k (steps start step m) = steps start step k.
Proof.
  revert start m. induction k as [|k IH]; intros start m Hle; [reflexivity|].
  destruct m as [|m]; [lia|]. rewrite !steps_cons. cbn [firstn].
  rewrite IH by lia. reflexivity.
Qed.

Lemma steps_window (start step : Z) (j k m : nat) :
  (j + k <= m)%nat ->
  firstn k (skipn j (steps start step m))
  = steps (start + Z.of_nat j * step) step k.
Proof.
  revert start m. induction j as [|j IH]; intros start m Hle.
  - cbn [skipn]. replace (start + Z.of_nat 0 * step) with start by lia.
    apply steps_firstn. lia.
  - destruct m as [|m]; [lia|]. rewrite steps_cons. cbn [skipn].
    rewrite IH by lia. f_equal. lia.
Qed.

(** X14.  What the windows hold and where they are said to be.  For a
    word size of 1, 2, 4 or 8: the words are read [WORD_SIZE] apart,
    whatever the word size, until the first word that is not loaded.  When
    fewer than [window_size] words were read, nothing is yielded and the
    generator fails on [next].  Otherwise the j-th window holds the
    [window_size] words read from start + j * WORD_SIZE on, and the address
    yielded with it is start + j * wordsize. *)
Theorem WindowWords_contents
        (WORD_SIZE : Z) (fuel : nat) (start end_ window_size wordsize : Z) :
  1 <= WORD_SIZE ->
  known_wordsize wordsize ->
  (whole_elements start end_ WORD_SIZE < fuel)%nat ->
  0 <= window_size ->
  exists m,
    (m <= whole_elements start end_ WORD_SIZE)%nat /\
    forallb (word_loaded I wordsize) (steps start WORD_SIZE m) = true /\
    ((m < whole_elements start end_ WORD_SIZE)%nat ->
     word_loaded I wordsize (start + Z.of_nat m * WORD_SIZE) = false) /\
    WindowWords I WORD_SIZE fuel start end_ window_size wordsize =
    Some (if (m <? Z.to_nat window_size)%nat then
            ([], Raised StopIterationInGenerator)
          else
            (map (fun j =>
                    (map (fun a => inl (peek I wordsize a))
                         (steps (start + Z.of_nat j * WORD_SIZE) WORD_SIZE
                                (Z.to_nat window_size)),
                     start + Z.of_nat j * wordsize))
                 (seq 0 (S (m - Z.to_nat window_size))),
             Done)).
Proof.
  intros Hstep Hk Hfuel Hsize.
  destruct (ReadWords_run fuel start end_ WORD_SIZE wordsize false
              Hstep Hk Hfuel) as (m & Hm & Hread & Hall & Hgap).
  exists m. repeat split; [exact Hm | exact Hall | exact Hgap |].
  cbn [word_item] in Hread.
  destruct (Nat.ltb_spec m (Z.to_nat window_size)) as [Hfew | Hmany].
  - unfold WindowWords. rewrite Hread, length_map, steps_length.
    replace (m <? Z.to_nat window_size)%nat with true
      by (symmetry; apply Nat.ltb_lt; exact Hfew).
    reflexivity.
  - rewrite (WindowWords_run _ _ _ _ _ _ _ _ Hread Hsize)
      by (rewrite length_map, steps_length; exact Hmany).
    rewrite length_map, steps_length. f_equal. f_equal.
    apply map_ext_in. intros j Hj. apply in_seq in Hj. f_equal.
    rewrite skipn_map, firstn_map. f_equal. apply steps_window. lia.
Qed.

End WordsFacts.

(** * Instructions *)

Section DecodingFacts.

Variable Insn : Type.
Variable size : Insn -> Z.
Variable DecodeInstruction : Z -> option Insn.

Local Abbreviation by_count_for :=
  (_instructions_by_count_for Insn size DecodeInstruction).
Local Abbreviation places := (decode_addresses Insn size DecodeInstruction).
Local Abbreviation after := (pc_after size DecodeInstruction).

Lemma by_count_for_chain (rounds : nat) :
  forall pc,
    snd (by_count_for rounds pc) = Done /\
    (length (fst (by_count_for rounds pc)) <= rounds)%nat /\
    length (places rounds pc) = length (fst (by_count_for rounds pc)) /\
    map DecodeInstruction (places rounds pc)
    = map Some (fst (by_count_for rounds pc)) /\
    ((length (fst (by_count_for rounds pc)) < rounds)%nat ->
     DecodeInstruction (after (length (fst (by_count_for rounds pc))) pc)
     = None).
Proof.
  induction rounds as [|rounds IH]; intros pc;
    cbn [_instructions_by_count_for decode_addresses].
  - cbn. repeat split; lia.
  - destruct (DecodeInstruction pc) as [insn|] eqn:Hdec.
    + destruct (IH (pc + size insn)) as (He & Hlen & Hpl & Hmap & Hstop).
      destruct (by_count_for rounds (pc + size insn)) as [ys e].
      cbn [fst snd length map pc_after] in *. rewrite Hdec.
      repeat split; [exact He | lia | lia | congruence |].
      intros Hlt. apply Hstop. lia.
    + cbn [fst snd length map pc_after]. repeat split; [lia|].
      intros _. exact Hdec.
Qed.

(** X15.  [_instructions_by_count] decodes back to back: each instruction
    is decoded where the one before it ends.  It yields at most [count]
    instructions, never raises, and yields fewer than [count] only when
    decoding fails at the place it has reached. *)
Theorem instructions_by_count_chain (pc count : Z) (ys : list Insn) (e : ending) :
  _instructions_by_count Insn size DecodeInstruction pc count = (ys, e) ->
  e = Done /\
  (length ys <= Z.to_nat count)%nat /\
  map DecodeInstruction (places (Z.to_nat count) pc) = map Some ys /\
  ((length ys < Z.to_nat count)%nat ->
   DecodeInstruction (after (length ys) pc) = None).
Proof.
  unfold _instructions_by_count. intros Hrun.
  destruct (by_count_for_chain (Z.to_nat count) pc)
    as (He & Hlen & _ & Hmap & Hstop).
  rewrite Hrun in *. cbn [fst snd] in *. auto.
Qed.

Lemma by_range_as_count (fuel : nat) :
  forall pc end_ ys e,
    _instructions_by_range Insn size DecodeInstruction fuel pc end_
    = Some (ys, e) ->
    e = Done /\
    ys = fst (by_count_for (length ys) pc) /\
    Forall (fun a => a < end_) (places (length ys) pc) /\
    length (places (length ys) pc) = length ys /\
    (end_ <= after (length ys) pc \/
     DecodeInstruction (after (length ys) pc) = None).
Proof.
  induction fuel as [|fuel IH]; intros pc end_ ys e;
    cbn [_instructions_by_range]; [discriminate|].
  destruct (Z.ltb_spec pc end_) as [Hlt | Hge].
  - destruct (DecodeInstruction pc) as [insn|] eqn:Hdec.
    + cbv zeta.
      destruct (_instructions_by_range Insn size DecodeInstruction fuel
                  (pc + size insn) end_) as [[ys' e']|] eqn:Hrec;
        [|discriminate].
      intros [= <- <-].
      destruct (IH _ _ _ _ Hrec) as (He & Hys & Hall & Hlen & Hstop).
      cbn [length _instructions_by_count_for decode_addresses pc_after].
      rewrite Hdec.
      destruct (by_count_for (length ys') (pc + size insn)) as [zs ez].
      cbn [fst] in *. repeat split.
      * exact He.
      * congruence.
      * constructor; assumption.
      * cbn [length]. lia.
      * exact Hstop.
    + intros [= <- <-]. cbn. repeat split; auto.
  - intros [= <- <-]. cbn. repeat split; auto.
Qed.

(** X16.  [_instructions_by_range] never raises, whatever the docstring of
    [Instructions] says about AlignmentError.  It yields the instructions
    that [_instructions_by_count] yields for that many rounds; every one of
    them starts below the end, but nothing is required of where it ends;
    and it stops where the next instruction would start at or after the
    end, or where decoding fails. *)
Theorem instructions_by_range_as_count
        (fuel : nat) (pc end_ : Z) (ys : list Insn) (e : ending) :
  _instructions_by_range Insn size DecodeInstruction fuel pc end_
  = Some (ys, e) ->
  e = Done /\
  ys = fst (_instructions_by_count Insn size DecodeInstruction pc
              (Z.of_nat (length ys))) /\
  Forall (fun a => a < end_) (places (length ys) pc) /\
  length (places (length ys) pc) = length ys /\
  (end_ <= after (length ys) pc \/
   DecodeInstruction (after (length ys) pc) = None).
Proof.
  intros Hrun. unfold _instructions_by_count. rewrite Nat2Z.id.
  exact (by_range_as_count fuel pc end_ ys e Hrun).
Qed.

(** X17.  When every instruction the decoder gives has a size of at least
    1, [_instructions_by_range] ends, after no more instructions than
    there are addresses in the range. *)
Theorem instructions_by_range_ends (fuel : nat) (pc end_ : Z) :
  (forall a insn, DecodeInstruction a = Some insn -> 1 <= size insn) ->
  (Z.to_nat (end_ - pc) < fuel)%nat ->
  exists ys,
    _instructions_by_range Insn size DecodeInstruction fuel pc end_
    = Some (ys, Done) /\
    (length ys <= Z.to_nat (end_ - pc))%nat.
Proof.
  intros Hsize. revert pc. induction fuel as [|fuel IH]; intros pc Hfuel;
    [lia|].
  cbn [_instructions_by_range].
  destruct (Z.ltb_spec pc end_) as [Hlt | Hge].
  - destruct (DecodeInstruction pc) as [insn|] eqn:Hdec.
    + cbv zeta. pose proof (Hsize pc insn Hdec) as Hpos.
      destruct (IH (pc + size insn)) as (ys & Hrun & Hlen); [lia|].
      rewrite Hrun. exists (insn :: ys). split; [reflexivity|].
      cbn [length]. lia.
    + exists []. split; [reflexivity | cbn; lia].
  - exists []. split; [reflexivity | cbn; lia].
Qed.

End DecodingFacts.

(** * C strings *)

Section CStringsFacts.

Variable Str : Type.
Variable decode : list byte -> outcome Str.

Local Abbreviation null_terminated := (null_terminated Str).

Lemma before_nul_app (s t : list byte) :
  ~ In x00 s -> before_nul (s ++ x00 :: t) = s.
Proof.
  induction s as [|b s IH]; intros Hno; cbn [app before_nul].
  - reflexivity.
  - destruct (Byte.eqb b x00) eqn:Hb.
    + exfalso. apply Hno. left. apply byte_dec_bl. exact Hb.
    + rewrite IH; [reflexivity|]. intros H. apply Hno. right. exact H.
Qed.

Lemma before_nul_all (s : list byte) : ~ In x00 s -> before_nul s = s.
Proof.
  induction s as [|b s IH]; intros Hno; cbn [before_nul]; [reflexivity|].
  destruct (Byte.eqb b x00) eqn:Hb.
  - exfalso. apply Hno. left. apply byte_dec_bl. exact Hb.
  - rewrite IH; [reflexivity|]. intros H. apply Hno. right. exact H.
Qed.

(** X18.  [null_terminated] undoes C-string termination: for bytes [s]
    without a NUL, it decodes exactly [s] whether [s] stands alone or is
    followed by a NUL and anything else. *)
Theorem null_terminated_round_trip (s : list byte) :
  ~ In x00 s ->
  null_terminated decode s = decode s /\
  forall t, null_terminated decode (s ++ x00 :: t) = decode s.
Proof.
  intros Hno. unfold null_terminated. split.
  - rewrite before_nul_all by exact Hno. reflexivity.
  - intros t. rewrite before_nul_app by exact Hno. reflexivity.
Qed.

(** X19.  The bytes [null_terminated] decodes hold no NUL and are the
    start of the input: what is left of the input is empty or begins with
    the first NUL. *)
Theorem null_terminated_decodes_prefix (string : list byte) :
  null_terminated decode string = decode (before_nul string) /\
  ~ In x00 (before_nul string) /\
  exists rest,
    string = before_nul string ++ rest /\
    (rest = [] \/ exists t, rest = x00 :: t).
Proof.
  split; [reflexivity|].
  induction string as [|b s IH]; cbn [before_nul].
  - split; [intros []|]. exists []. split; [reflexivity | left; reflexivity].
  - destruct (Byte.eqb b x00) eqn:Hb.
    + apply byte_dec_bl in Hb. subst b. split; [intros []|].
      exists (x00 :: s). split; [reflexivity|]. right. exists s. reflexivity.
    + destruct IH as [Hno (rest & Hs & Hrest)]. split.
      * intros [H | H]; [|exact (Hno H)]. subst b. discriminate Hb.
      * exists rest. split; [cbn [app]; congruence | exact Hrest].
Qed.

End CStringsFacts.

(** * Runs on the small image *)

Lemma addresses_by_length_witness :
  Addresses small_image 4 100 None 8 (Some 3) false true true false =
  Some (Returns ([100; 108; 116], Done)).
Proof.
  apply (Addresses_by_length small_image 4 100 8 3 None false true false);
    [lia | lia | left; reflexivity | vm_compute; lia].
Defined.

(** The range ends off a boundary and [aligned] is set, but 116 is not
    loaded: the iteration stops there and no AlignmentError is seen. *)
Lemma mapped_addresses_stops_at_gap_witness :
  exists rest,
    [100; 108; 116; 124] = [100; 108] ++ rest /\
    forallb (sufficiently_mapped small_image 8 false) [100; 108] = true /\
    ((rest = [] /\ Done = Raised (AlignmentError 130)) \/
     (exists a rest',
        rest = a :: rest' /\ sufficiently_mapped small_image 8 false a = false /\
        Done = Done)).
Proof.
  apply (mapped_addresses_stops_at_gap small_image 8 false
           [100; 108; 116; 124] [100; 108] (Raised (AlignmentError 130)) Done).
  reflexivity.
Defined.

Example Addresses_aligned_but_unmapped :
  Addresses small_image 5 100 (Some 130) 8 None false true true false =
  Some (Returns ([100; 108; 116], Raised (AlignmentError 130))) /\
  Addresses small_image 5 100 (Some 130) 8 None false true false false =
  Some (Returns ([100; 108], Done)).
Proof. split; reflexivity. Qed.

Lemma read_word_unknown_size_witness :
  ~ known_wordsize 16 /\
  read_word small_image 100 16 = Raises ValueError /\
  read_word small_image 104 16 = Returns None.
Proof.
  assert (H : ~ known_wordsize 16) by (unfold known_wordsize; lia).
  split; [exact H|]. split.
  - rewrite (read_word_unknown_size small_image 100 16 H). reflexivity.
  - rewrite (read_word_unknown_size small_image 104 16 H). reflexivity.
Defined.

Lemma ReadWords_reads_until_gap_witness :
  exists m,
    (m <= whole_elements 100 132 4)%nat /\
    ReadWords small_image 9 100 132 4 4 true =
    Some (map (fun a => word_item true (peek small_image 4 a) a)
              (steps 100 4 m), Done) /\
    forallb (word_loaded small_image 4) (steps 100 4 m) = true /\
    ((m < whole_elements 100 132 4)%nat ->
     word_loaded small_image 4 (100 + Z.of_nat m * 4) = false).
Proof.
  apply (ReadWords_reads_until_gap small_image 9 100 132 4 4 true);
    [lia | unfold known_wordsize; lia | vm_compute; lia].
Defined.

Example ReadWords_small_image :
  ReadWords small_image 9 100 132 4 4 true =
  Some ([inr (2100, 100); inr (2104, 104); inr (2108, 108); inr (2112, 112)],
        Done).
Proof. reflexivity. Qed.

Lemma ReadWords_bad_wordsize_witness :
  ReadWords small_image 9 100 132 4 0 false = Some ([], Raised ValueError) /\
  ReadWords small_image 1 100 100 4 0 false = Some ([], Done).
Proof.
  split.
  - apply (ReadWords_bad_wordsize small_image 9 100 132 4 0 false);
      [lia | lia | vm_compute; lia].
  - apply (ReadWords_bad_wordsize small_image 1 100 100 4 0 false);
      [lia | lia | vm_compute; lia].
Defined.

Lemma ReadWords_default_ends_normally_witness :
  exists ys,
    ReadWords small_image 5 100 132
      (_initialize_WORD_SIZE true false) (_initialize_WORD_SIZE true false)
      false = Some (ys, Done).
Proof.
  apply (ReadWords_default_ends_normally small_image true false 5 100 132 false).
  vm_compute. lia.
Defined.

Lemma WindowWords_slides_witness :
  WindowWords small_image 4 9 100 132 2 4 =
  Some (map (fun j =>
               (firstn (Z.to_nat 2)
                  (skipn j [inl 2100; inl 2104; inl 2108; inl 2112]),
                100 + Z.of_nat j * 4))
            (seq 0 (S (length [inl 2100; inl 2104; inl 2108; inl 2112 : Z + Z * Z]
                       - Z.to_nat 2))),
        Done).
Proof.
  apply (WindowWords_slides small_image 4 9 100 132 2 4
           [inl 2100; inl 2104; inl 2108; inl 2112] Done);
    [reflexivity | lia | vm_compute; lia].
Defined.

Lemma WindowWords_contents_witness :
  exists m,
    (m <= whole_elements 100 132 4)%nat /\
    forallb (word_loaded small_image 2) (steps 100 4 m) = true /\
    ((m < whole_elements 100 132 4)%nat ->
     word_loaded small_image 2 (100 + Z.of_nat m * 4) = false) /\
    WindowWords small_image 4 9 100 132 2 2 =
    Some (if (m <? Z.to_nat 2)%nat then ([], Raised StopIterationInGenerator)
          else
            (map (fun j =>
                    (map (fun a => inl (peek small_image 2 a))
                         (steps (100 + Z.of_nat j * 4) 4 (Z.to_nat 2)),
                     100 + Z.of_nat j * 2))
                 (seq 0 (S (m - Z.to_nat 2))),
             Done)).
Proof.
  apply (WindowWords_contents small_image 4 9 100 132 2 2);
    [lia | unfold known_wordsize; lia | vm_compute; lia | lia].
Defined.

(** Two-byte words on a platform whose [WORD_SIZE] is 4: the second window
    holds the words read at 104 and 108 and is yielded with address 102. *)
Example WindowWords_address_drift :
  WindowWords small_image 4 9 100 132 2 2 =
  Some ([([inl 1100; inl 1104], 100); ([inl 1104; inl 1108], 102);
         ([inl 1108; inl 1112], 104)], Done).
Proof. reflexivity. Qed.

Lemma instructions_by_count_chain_witness :
  Done = Done /\
  (length [100; 104; 108; 112] <= Z.to_nat 6)%nat /\
  map small_decoder (decode_addresses Z four_bytes small_decoder (Z.to_nat 6) 100)
  = map Some [100; 104; 108; 112] /\
  ((length [100; 104; 108; 112] < Z.to_nat 6)%nat ->
   small_decoder (pc_after four_bytes small_decoder
                    (length [100; 104; 108; 112]) 100) = None).
Proof.
  apply (instructions_by_count_chain Z four_bytes small_decoder 100 6
           [100; 104; 108; 112] Done).
  reflexivity.
Defined.

(** The range ends at 110, inside the instruction at 108: the instruction
    is yielded all the same. *)
Lemma instructions_by_range_as_count_witness :
  Done = Done /\
  [100; 104; 108] =
  fst (_instructions_by_count Z four_bytes small_decoder 100
         (Z.of_nat (length [100; 104; 108]))) /\
  Forall (fun a => a < 110)
    (decode_addresses Z four_bytes small_decoder (length [100; 104; 108]) 100) /\
  length (decode_addresses Z four_bytes small_decoder
            (length [100; 104; 108]) 100) = length [100; 104; 108] /\
  (110 <= pc_after four_bytes small_decoder (length [100; 104; 108]) 100 \/
   small_decoder (pc_after four_bytes small_decoder
                    (length [100; 104; 108]) 100) = None).
Proof.
  apply (instructions_by_range_as_count Z four_bytes small_decoder 4 100 110
           [100; 104; 108] Done).
  reflexivity.
Defined.

Lemma instructions_by_range_ends_witness :
  exists ys,
    _instructions_by_range Z four_bytes small_decoder 11 100 110
    = Some (ys, Done) /\
    (length ys <= Z.to_nat (110 - 100))%nat.
Proof.
  apply (instructions_by_range_ends Z four_bytes small_decoder 11 100 110).
  - intros a insn _. unfold four_bytes. lia.
  - vm_compute. lia.
Defined.

Lemma null_terminated_round_trip_witness :
  null_terminated (list byte) Returns ["a"; "b"]%byte = Returns ["a"; "b"]%byte /\
  forall t,
    null_terminated (list byte) Returns (["a"; "b"]%byte ++ x00 :: t)
    = Returns ["a"; "b"]%byte.
Proof.
  apply (null_terminated_round_trip (list byte) Returns ["a"; "b"]%byte).
  intros [H | [H | []]]; discriminate H.
Defined.

(** * Ending *)

Lemma addresses_while_never_leaves (end_full step : Z) (fuel : nat) :
  step <= 0 ->
  forall addr, addr < end_full ->
  _addresses_while fuel addr end_full step = None.
Proof.
  intros Hstep. induction fuel as [|fuel IH]; intros addr Hlt; [reflexivity|].
  cbn [_addresses_while].
  replace (addr <? end_full) with true by (symmetry; apply Z.ltb_lt; lia).
  rewrite IH by lia. reflexivity.
Qed.

(** X20.  [_addresses] itself does not look at the step: with a step of 0
    or less and a start below end - step + 1, its loop never ends, whatever
    the fuel. *)
Theorem addresses_bad_step_never_ends
        (start end_ step : Z) (partial aligned : bool) :
  step <= 0 ->
  start < end_ - step + 1 ->
  forall fuel, _addresses fuel start end_ step partial aligned = None.
Proof.
  intros Hstep Hlt fuel. unfold _addresses. cbv zeta.
  rewrite addresses_while_never_leaves by assumption. reflexivity.
Qed.

Lemma addresses_bad_step_never_ends_witness :
  0 <= 0 /\ 100 < 110 - 0 + 1 /\
  _addresses 7 100 110 0 false false = None.
Proof.
  split; [lia|]. split; [lia|].
  apply (addresses_bad_step_never_ends 100 110 0 false false); lia.
Defined.

(** X21.  [Addresses] always ends: for every choice of arguments there is
    an amount of fuel from which on the call has one and the same outcome,
    a ValueError or a generator that ends.  The check of the step is what
    spares it the loop of X20. *)
Theorem Addresses_ends
        (I : Image) (start step : Z) (end_ length : option Z)
        (partial aligned unmapped allow_unmapped : bool) :
  exists fuel r,
    forall fuel', (fuel <= fuel')%nat ->
      Addresses I fuel' start end_ step length partial aligned unmapped
                allow_unmapped = Some r.
Proof.
  unfold Addresses. destruct (Z.ltb_spec step 1) as [Hstep | Hstep].
  { exists 0%nat, (Raises ValueError). reflexivity. }
  assert (Hgen : forall e,
    exists fuel r, forall fuel', (fuel <= fuel')%nat ->
      match _addresses fuel' start e step partial aligned with
      | Some addresses =>
          if unmapped then Some (Returns addresses)
          else Some (Returns (_mapped_addresses I addresses step partial
                                allow_unmapped))
      | None => None
      end = Some r).
  { intros e. exists (S (whole_elements start e step)).
    destruct unmapped; eexists; intros fuel' Hfuel;
      rewrite addresses_run by (try assumption; lia); reflexivity. }
  destruct length as [len|], end_ as [e|].
  - destruct (negb (e =? start + len * step)).
    + exists 0%nat, (Raises ValueError). reflexivity.
    + apply Hgen.
  - apply Hgen.
  - apply Hgen.
  - exists 0%nat, (Raises ValueError). reflexivity.
Qed.

(** * What the conversion asks of the engine *)

Section CallFacts.

Variable E : Engine.
Variable P : Call -> Prop.

Lemma emits_ret {A} (a : A) : emits P (ret E a).
Proof. intros w a' w' [= _ <-]. exists []. now rewrite app_nil_r. Qed.

Lemma emits_call {A} (c : Call) (f : St E -> A * St E) :
  P c -> emits P (call E c f).
Proof.
  intros Hc w a w'. rewrite call_run. intros [= _ <-]. exists [c].
  split; [reflexivity | constructor; [exact Hc | constructor]].
Qed.

Lemma emits_bind {A B} (m : M E A) (k : A -> M E B) :
  emits P m -> (forall a, emits P (k a)) -> emits P (bind E m k).
Proof.
  intros Hm Hk w b w' H. apply bind_Some in H.
  destruct H as (a & w1 & H1 & H2). apply Hm in H1. apply Hk in H2.
  destruct H1 as (l1 & H1 & Hp1), H2 as (l2 & H2 & Hp2).
  exists (l1 ++ l2). split; [now rewrite H2, H1, app_assoc|].
  apply Forall_app. auto.
Qed.

(** What follows a getter is only run on what the getter can answer. *)
Lemma emits_bind_query {A B} (f : St E -> A) (k : A -> M E B) :
  (forall s, emits P (k (f s))) -> emits P (bind E (query E f) k).
Proof. intros Hk w b w'. rewrite bind_query. apply Hk. Qed.

Lemma emits_bind_call {A B} (c : Call) (f : St E -> A * St E)
      (k : A -> M E B) :
  P c -> (forall s, emits P (k (fst (f s)))) ->
  emits P (bind E (call E c f) k).
Proof.
  intros Hc Hk w b w'. rewrite bind_call. intros H. apply Hk in H.
  destruct H as (l & Hl & Hp). cbn [log] in Hl.
  exists (c :: l). split; [rewrite Hl, <- app_assoc; reflexivity|].
  constructor; assumption.
Qed.

Lemma emits_if {A} (b : bool) (m1 m2 : M E A) :
  emits P m1 -> emits P m2 -> emits P (if b then m1 else m2).
Proof. destruct b; auto. Qed.

End CallFacts.

Section AllowedCalls.

Variable E : Engine.
Variables func orig : Z.

Local Abbreviation ok := (allowed_call E func orig).

Lemma emits_fix_insns (fuel : nat) :
  emits ok (_fix_unrecognized_function_insns E fuel func).
Proof.
  induction fuel as [|fuel IH]; cbn [_fix_unrecognized_function_insns].
  - intros w a w'. discriminate.
  - unfold call_find_func_end, call_find_func_bounds, call_del_items,
      call_create_insn, _log.
    apply emits_bind_call; [reflexivity|]. intros s1.
    apply emits_if; [|apply emits_ret].
    apply emits_bind_call; [reflexivity|]. intros s2.
    apply emits_if.
    { apply emits_bind; [apply emits_ret | intros; apply emits_ret]. }
    apply emits_bind_query. intros s3.
    apply emits_bind; [apply emits_ret|]. intros _.
    apply emits_bind_call; [exists s2; reflexivity|]. intros s4.
    apply emits_bind_call; [exists s2; reflexivity|]. intros s5.
    apply emits_if; [|exact IH].
    apply emits_bind; [apply emits_ret | intros; apply emits_ret].
Qed.

Lemma emits_remove_fchunk_loop (n : nat) :
  emits ok (remove_fchunk_loop E n func).
Proof.
  induction n as [|n IH]; cbn [remove_fchunk_loop]; [apply emits_ret|].
  unfold call_remove_fchunk.
  apply emits_bind_call; [split; reflexivity|]. intros s.
  apply emits_if; [apply emits_ret | exact IH].
Qed.

Lemma emits_fix_or_detach (fuel : nat) : emits ok (fix_or_detach E fuel func).
Proof.
  unfold fix_or_detach, call_find_func_end.
  apply emits_bind_call; [reflexivity|]. intros s. apply emits_if.
  - apply emits_bind; [apply emits_fix_insns | intros; apply emits_ret].
  - apply emits_remove_fchunk_loop.
Qed.

Lemma emits_undo_damage (s : St E) (rest : list (Z * Z)) :
  incl rest (Chunks E s orig) -> emits ok (undo_damage E rest).
Proof.
  induction rest as [|[start e] rest IH]; intros Hincl; cbn [undo_damage].
  - apply emits_ret.
  - unfold call_del_func. apply emits_bind_call.
    + right. exists s, (start, e). split; [|reflexivity].
      apply Hincl. left. reflexivity.
    + intros _. apply IH. intros c Hc. apply Hincl. right. exact Hc.
Qed.

Lemma emits_make_function : emits ok (make_function E func orig).
Proof.
  unfold make_function, call_add_func.
  apply emits_bind_call; [left; reflexivity|]. intros s1.
  apply emits_if; [apply emits_ret|].
  apply emits_bind.
  - apply emits_if; [|apply emits_ret].
    unfold delete_and_recreate, call_del_func.
    apply emits_bind_query. intros s2.
    apply emits_bind_call; [left; reflexivity|]. intros s3.
    apply emits_if; [|apply emits_ret].
    apply emits_bind.
    + unfold recreate_both, call_add_func.
      apply emits_bind_call; [left; reflexivity|]. intros s4.
      apply emits_if; [|apply emits_ret].
      apply emits_bind_call; [right; reflexivity|]. intros s5.
      apply emits_if; [|apply emits_ret].
      intros w a w' [= _ <-]. exists []. split; [now rewrite app_nil_r|].
      constructor.
    + intros done. apply emits_if; [apply emits_ret|].
      apply emits_bind; [|intros; apply emits_ret].
      apply (emits_undo_damage s2). apply incl_refl.
  - intros done. apply emits_if; [apply emits_ret|].
    unfold restore_original, _log, call_add_func.
    apply emits_bind; [|intros; apply emits_ret].
    apply emits_if; [|apply emits_ret].
    apply emits_bind; [apply emits_ret|]. intros _.
    apply emits_bind_call; [right; reflexivity|]. intros s.
    apply emits_ret.
Qed.

End AllowedCalls.

(** X22.  For every engine, the calls [force_function(addr)] makes stay
    with [addr], the first chunk [orig] captured on entry, and what the
    engine itself pointed to: bounds, chunk removal and creation are asked
    at [addr] only; the item undefined and made an instruction is one the
    bounds search reported; functions are created at [addr] and [orig]
    only, and deleted at [orig] and at chunk starts the engine listed for
    [orig] only. *)
Theorem force_function_calls_allowed
        (E : Engine) (fuel : nat) (addr : Z) (w w' : World E) (b : bool) :
  force_function E fuel addr w = Some (b, w') ->
  exists calls,
    log w' = log w ++ calls /\
    Forall (allowed_call E addr (first_func_chunk E (db w) addr)) calls.
Proof.
  unfold force_function. rewrite bind_query.
  destruct (is_function_start E (db w) addr).
  - intros [= _ <-]. exists []. split; [now rewrite app_nil_r | constructor].
  - unfold _convert_address_to_function. rewrite bind_query.
    apply (emits_bind E _ _ _ (emits_fix_or_detach E addr _ fuel)).
    intros _. apply emits_make_function.
Qed.

Lemma force_function_calls_allowed_witness :
  exists calls,
    [FindFuncEnd 105; RemoveFchunk 105 105; AddFunc 105; DelFunc 100;
     AddFunc 105; AddFunc 100; DelFunc 100; AddFunc 100] = [] ++ calls /\
    Forall (allowed_call MiniDB 105
              (first_func_chunk MiniDB (mkMini A_long true) 105)) calls.
Proof.
  apply (force_function_calls_allowed MiniDB 1 105
           (mkWorld (E:=MiniDB) (mkMini A_long true) [])
           (mkWorld (E:=MiniDB) (mkMini B_only true)
              [FindFuncEnd 105; RemoveFchunk 105 105; AddFunc 105; DelFunc 100;
               AddFunc 105; AddFunc 100; DelFunc 100; AddFunc 100])
           false).
  reflexivity.
Defined.

(** X23.  With an engine that keeps its books, [force_function] leaves
    every other function alone: an address that belonged on entry to a
    function other than the original one still belongs to that function
    when the call returns, whatever the call did and answered. *)
Theorem other_functions_untouched
        (E : Engine) (fuel : nat) (addr x g : Z) (w w' : World E) (b : bool) :
  Honest E ->
  is_function_start E (db w) addr = false ->
  force_function E fuel addr w = Some (b, w') ->
  get_func E (db w) x = Some g ->
  g <> first_func_chunk E (db w) addr ->
  get_func E (db w') x = Some g.
Proof.
  intros HE Hstart Hrun Hx Hg.
  destruct (force_function_touches_only_ours E HE fuel addr w w' b Hstart Hrun x)
    as [Hsame | [[Hfree | Horig] _]]; congruence.
Qed.

Lemma other_functions_untouched_witness :
  force_function MiniDB 1 102 (mkWorld (E:=MiniDB) (mkMini A_short_B true) []) =
  Some (false,
        mkWorld (E:=MiniDB) (mkMini B_only true)
          [FindFuncEnd 102; RemoveFchunk 102 102; AddFunc 102; DelFunc 100;
           AddFunc 102; DelFunc 100; AddFunc 100]) /\
  get_func MiniDB (mkMini A_short_B true) 107 = Some 105 /\
  get_func MiniDB (mkMini B_only true) 107 = Some 105.
Proof.
  split; [reflexivity|]. split; [reflexivity|].
  apply (other_functions_untouched MiniDB 1 102 107 105
           (mkWorld (E:=MiniDB) (mkMini A_short_B true) [])
           (mkWorld (E:=MiniDB) (mkMini B_only true)
              [FindFuncEnd 102; RemoveFchunk 102 102; AddFunc 102; DelFunc 100;
               AddFunc 102; DelFunc 100; AddFunc 100])
           false MiniDB_honest); try reflexivity.
  cbn. lia.
Defined.

(** * Exceptions *)

Section RaisingFacts.

Variable E : Raising.Engine.

Lemma raising_bind_cases {A B} (m : Raising.M E A) (k : A -> Raising.M E B)
      (w : Raising.World E) (r : outcome B) (w' : Raising.World E) :
  Raising.bind E m k w = Some (r, w') ->
  (exists a w1, m w = Some (Returns a, w1) /\ k a w1 = Some (r, w')) \/
  (exists e, m w = Some (Raises e, w') /\ r = Raises e).
Proof.
  unfold Raising.bind. destruct (m w) as [[[a | e] w1]|]; [| |discriminate].
  - intros H. left. exists a, w1. auto.
  - intros [= <- <-]. right. exists e. auto.
Qed.

Lemma passes_on_ret {A} (a : A) : Raising.passes_on (Raising.ret E a).
Proof. intros w e w' H. discriminate H. Qed.

Lemma passes_on_query {A} (f : Raising.St E -> outcome A) :
  (forall s e, f s = Raises e -> Raising.engine_raises E e) ->
  Raising.passes_on (Raising.query E f).
Proof. intros Hf w e w' [= H _]. exact (Hf _ _ H). Qed.

Lemma passes_on_call {A} (c : Call)
      (f : Raising.St E -> outcome A * Raising.St E) :
  (forall s e, fst (f s) = Raises e -> Raising.engine_raises E e) ->
  Raising.passes_on (Raising.call E c f).
Proof.
  intros Hf w e w'. unfold Raising.call.
  destruct (f (Raising.db w)) as [r s] eqn:Hrun. intros [= -> _].
  apply (Hf (Raising.db w)). rewrite Hrun. reflexivity.
Qed.

Lemma passes_on_bind {A B} (m : Raising.M E A) (k : A -> Raising.M E B) :
  Raising.passes_on m -> (forall a, Raising.passes_on (k a)) ->
  Raising.passes_on (Raising.bind E m k).
Proof.
  intros Hm Hk w e w' H. apply raising_bind_cases in H.
  destruct H as [(a & w1 & _ & H) | (e' & H & [= <-])].
  - exact (Hk a _ _ _ H).
  - exact (Hm _ _ _ H).
Qed.

Lemma passes_on_if {A} (b : bool) (m1 m2 : Raising.M E A) :
  Raising.passes_on m1 -> Raising.passes_on m2 ->
  Raising.passes_on (if b then m1 else m2).
Proof. destruct b; auto. Qed.

Ltac engine_raised :=
  let s := fresh "s" in let e := fresh "e" in let H := fresh "H" in
  intros s e H; unfold Raising.engine_raises;
  eexists s, _; eauto 20.

Ltac passes :=
  repeat first
    [ assumption
    | apply passes_on_ret
    | apply passes_on_if
    | apply passes_on_query; engine_raised
    | apply passes_on_call; engine_raised
    | match goal with
      | |- Raising.passes_on (Raising.bind _ _ _) =>
          apply passes_on_bind; [|intros]
      end ].

Lemma passes_on_fix_insns (fuel : nat) (func : Z) :
  Raising.passes_on (Raising._fix_unrecognized_function_insns E fuel func).
Proof.
  induction fuel as [|fuel IH]; cbn [Raising._fix_unrecognized_function_insns].
  - intros w e w' H. discriminate H.
  - unfold Raising.call_find_func_end, Raising.call_find_func_bounds,
      Raising.call_del_items, Raising.call_create_insn, Raising._log.
    passes.
Qed.

Lemma passes_on_remove_fchunk_loop (n : nat) (func : Z) :
  Raising.passes_on (Raising.remove_fchunk_loop E n func).
Proof.
  induction n as [|n IH]; cbn [Raising.remove_fchunk_loop];
    unfold Raising.call_remove_fchunk; passes.
Qed.

Lemma passes_on_all_chunks_owned (chunks : list (Z * Z)) :
  Raising.passes_on (Raising.all_chunks_owned E chunks).
Proof.
  induction chunks as [|[start e] rest IH]; cbn [Raising.all_chunks_owned];
    [passes|].
  apply passes_on_bind; [passes|]. intros [g|]; passes.
Qed.

Lemma passes_on_undo_damage (chunks : list (Z * Z)) :
  Raising.passes_on (Raising.undo_damage E chunks).
Proof.
  induction chunks as [|[start e] rest IH]; cbn [Raising.undo_damage];
    unfold Raising.call_del_func; passes.
Qed.

Lemma passes_on_force_function (fuel : nat) (addr : Z) :
  Raising.passes_on (Raising.force_function E fuel addr).
Proof.
  unfold Raising.force_function, Raising.is_function_start,
    Raising._convert_address_to_function, Raising.fix_or_detach,
    Raising.make_function, Raising.delete_and_recreate,
    Raising.recreate_both, Raising.restore_original,
    Raising.call_find_func_end, Raising.call_add_func, Raising.call_del_func,
    Raising._log.
  repeat first
    [ apply passes_on_fix_insns
    | apply passes_on_remove_fchunk_loop
    | apply passes_on_all_chunks_owned
    | apply passes_on_undo_damage
    | progress passes ].
Qed.

(** Fuel *)

Lemma stuck_ret (Q : Prop) {A} (a : A) :
  Raising.stuck_only_if Q (Raising.ret E a).
Proof. intros w H. discriminate H. Qed.

Lemma stuck_query (Q : Prop) {A} (f : Raising.St E -> outcome A) :
  Raising.stuck_only_if Q (Raising.query E f).
Proof. intros w H. discriminate H. Qed.

Lemma stuck_call (Q : Prop) {A} (c : Call)
      (f : Raising.St E -> outcome A * Raising.St E) :
  Raising.stuck_only_if Q (Raising.call E c f).
Proof.
  intros w. unfold Raising.call. destruct (f (Raising.db w)). discriminate.
Qed.

Lemma stuck_bind (Q : Prop) {A B} (m : Raising.M E A)
      (k : A -> Raising.M E B) :
  Raising.stuck_only_if Q m -> (forall a, Raising.stuck_only_if Q (k a)) ->
  Raising.stuck_only_if Q (Raising.bind E m k).
Proof.
  intros Hm Hk w. unfold Raising.bind.
  destruct (m w) as [[[a | e] w1]|] eqn:Hrun.
  - apply Hk.
  - discriminate.
  - intros _. exact (Hm w Hrun).
Qed.

Lemma stuck_if (Q : Prop) {A} (b : bool) (m1 m2 : Raising.M E A) :
  Raising.stuck_only_if Q m1 -> Raising.stuck_only_if Q m2 ->
  Raising.stuck_only_if Q (if b then m1 else m2).
Proof. destruct b; auto. Qed.

Ltac not_stuck :=
  repeat first
    [ assumption
    | apply stuck_ret | apply stuck_query | apply stuck_call
    | apply stuck_if
    | match goal with
      | |- Raising.stuck_only_if _ (Raising.bind _ _ _) =>
          apply stuck_bind; [|intros]
      end ].

Lemma stuck_remove_fchunk_loop (Q : Prop) (n : nat) (func : Z) :
  Raising.stuck_only_if Q (Raising.remove_fchunk_loop E n func).
Proof.
  induction n as [|n IH]; cbn [Raising.remove_fchunk_loop];
    unfold Raising.call_remove_fchunk; not_stuck.
Qed.

Lemma stuck_all_chunks_owned (Q : Prop) (chunks : list (Z * Z)) :
  Raising.stuck_only_if Q (Raising.all_chunks_owned E chunks).
Proof.
  induction chunks as [|[start e] rest IH]; cbn [Raising.all_chunks_owned];
    [not_stuck|].
  apply stuck_bind; [not_stuck|]. intros [g|]; not_stuck.
Qed.

Lemma stuck_undo_damage (Q : Prop) (chunks : list (Z * Z)) :
  Raising.stuck_only_if Q (Raising.undo_damage E chunks).
Proof.
  induction chunks as [|[start e] rest IH]; cbn [Raising.undo_damage];
    unfold Raising.call_del_func; not_stuck.
Qed.

Lemma stuck_force_function (fuel : nat) (addr : Z) :
  Raising.stuck_only_if
    (exists w1, Raising._fix_unrecognized_function_insns E fuel addr w1 = None)
    (Raising.force_function E fuel addr).
Proof.
  assert (Hfix : Raising.stuck_only_if
            (exists w1,
               Raising._fix_unrecognized_function_insns E fuel addr w1 = None)
            (Raising._fix_unrecognized_function_insns E fuel addr)).
  { intros w H. exists w. exact H. }
  unfold Raising.force_function, Raising.is_function_start,
    Raising._convert_address_to_function, Raising.fix_or_detach,
    Raising.make_function, Raising.delete_and_recreate,
    Raising.recreate_both, Raising.restore_original,
    Raising.call_find_func_end, Raising.call_add_func, Raising.call_del_func,
    Raising._log.
  repeat first
    [ exact Hfix
    | apply stuck_remove_fchunk_loop
    | apply stuck_all_chunks_owned
    | apply stuck_undo_damage
    | progress not_stuck ].
Qed.

End RaisingFacts.

(** ** Engines that always answer *)

Lemma answering_never_raises (E : Engine) (e : exn) :
  ~ Raising.engine_raises (answering E) e.
Proof.
  intros (s & a & H). cbn in H.
  repeat (destruct H as [H | H]; [discriminate H|]).
  destruct H as [[t H] | [H | H]]; discriminate H.
Qed.

Section Agreement.

Variable E : Engine.

Lemma agrees_ret {A} (a : A) : agrees (Raising.ret (answering E) a) (ret E a).
Proof. intros w. reflexivity. Qed.

Lemma agrees_query {A} (f : St E -> A) :
  agrees (Raising.query (answering E) (fun s => Returns (f s))) (query E f).
Proof. intros w. reflexivity. Qed.

Lemma agrees_call {A} (c : Call) (f : St E -> A * St E) :
  agrees (Raising.call (answering E) c
            (fun s => (Returns (fst (f s)), snd (f s))))
         (call E c f).
Proof.
  intros w. unfold Raising.call, call. cbn [raising_world Raising.db Raising.log].
  destruct (f (db w)). reflexivity.
Qed.

Lemma agrees_bind {A B}
      (m' : Raising.M (answering E) A) (m : M E A)
      (k' : A -> Raising.M (answering E) B) (k : A -> M E B) :
  agrees m' m -> (forall a, agrees (k' a) (k a)) ->
  agrees (Raising.bind (answering E) m' k') (bind E m k).
Proof.
  intros Hm Hk w. unfold Raising.bind, bind. rewrite Hm.
  destruct (m w) as [[a w1]|]; [apply Hk | reflexivity].
Qed.

Lemma agrees_if {A} (b : bool)
      (m1' m2' : Raising.M (answering E) A) (m1 m2 : M E A) :
  agrees m1' m1 -> agrees m2' m2 ->
  agrees (if b then m1' else m2') (if b then m1 else m2).
Proof. destruct b; auto. Qed.

Ltac agree_call :=
  match goal with
  | |- agrees (Raising.call _ ?c _) (call _ ?c ?f) => exact (agrees_call c f)
  end.

Ltac agree :=
  repeat first
    [ assumption
    | apply agrees_ret
    | agree_call
    | apply agrees_if
    | match goal with
      | |- agrees (Raising.bind _ _ _) (bind _ _ _) =>
          apply agrees_bind; [|intros]
      end ].

Lemma agrees_fix_insns (fuel : nat) (func : Z) :
  agrees (Raising._fix_unrecognized_function_insns (answering E) fuel func)
         (_fix_unrecognized_function_insns E fuel func).
Proof.
  induction fuel as [|fuel IH];
    cbn [Raising._fix_unrecognized_function_insns
         _fix_unrecognized_function_insns].
  - intros w. reflexivity.
  - unfold Raising.call_find_func_end, Raising.call_find_func_bounds,
      Raising.call_del_items, Raising.call_create_insn, Raising._log,
      call_find_func_end, call_find_func_bounds, call_del_items,
      call_create_insn, _log.
    apply agrees_bind; [agree|]. intros fe. apply agrees_if; [|agree].
    apply agrees_bind; [agree|]. intros u. apply agrees_if; [agree|].
    apply agrees_bind; [apply agrees_query|]. intros u_end.
    agree.
Qed.

Lemma agrees_remove_fchunk_loop (n : nat) (func : Z) :
  agrees (Raising.remove_fchunk_loop (answering E) n func)
         (remove_fchunk_loop E n func).
Proof.
  induction n as [|n IH]; cbn [Raising.remove_fchunk_loop remove_fchunk_loop];
    unfold Raising.call_remove_fchunk, call_remove_fchunk; agree.
Qed.

Lemma agrees_all_chunks_owned (chunks : list (Z * Z)) :
  agrees (Raising.all_chunks_owned (answering E) chunks)
         (query E (fun s => all_chunks_owned E s chunks)).
Proof.
  intros w. unfold query. cbn [raising_world].
  induction chunks as [|[start e] rest IH];
    cbn [Raising.all_chunks_owned all_chunks_owned forallb fst]; [reflexivity|].
  unfold Raising.bind, Raising.query at 1.
  cbn [Raising.get_func answering].
  change (Raising.db (raising_world w)) with (db w).
  destruct (get_func E (db w) start); [exact IH | reflexivity].
Qed.

Lemma agrees_undo_damage (chunks : list (Z * Z)) :
  agrees (Raising.undo_damage (answering E) chunks) (undo_damage E chunks).
Proof.
  induction chunks as [|[start e] rest IH];
    cbn [Raising.undo_damage undo_damage];
    unfold Raising.call_del_func, call_del_func; agree.
Qed.

(** On an engine that always answers, the code read with exceptions does
    what the code read without them does. *)
Lemma agrees_force_function (fuel : nat) (addr : Z) :
  agrees (Raising.force_function (answering E) fuel addr)
         (force_function E fuel addr).
Proof.
  pose proof agrees_fix_insns. pose proof agrees_remove_fchunk_loop.
  pose proof agrees_all_chunks_owned. pose proof agrees_undo_damage.
  unfold Raising.force_function, force_function.
  apply agrees_bind.
  { intros w. reflexivity. }
  intros st. apply agrees_if; [agree|].
  unfold Raising._convert_address_to_function, _convert_address_to_function.
  apply agrees_bind; [apply agrees_query|]. intros orig.
  apply agrees_bind.
  { unfold Raising.fix_or_detach, fix_or_detach, Raising.call_find_func_end,
      call_find_func_end.
    apply agrees_bind; [agree_call|]. intros fe.
    apply agrees_if; [|apply agrees_remove_fchunk_loop].
    apply agrees_bind; [apply agrees_fix_insns | intros; apply agrees_ret]. }
  intros _.
  unfold Raising.make_function, make_function, Raising.delete_and_recreate,
    delete_and_recreate, Raising.recreate_both, recreate_both,
    Raising.restore_original, restore_original, Raising.call_add_func,
    call_add_func, Raising.call_del_func, call_del_func, Raising._log, _log.
  apply agrees_bind; [agree|]. intros ok. apply agrees_if; [agree|].
  apply agrees_bind.
  - apply agrees_if; [|agree].
    apply agrees_bind; [apply agrees_query|]. intros chunks.
    agree; auto.
  - intros done. agree; auto.
Qed.

End Agreement.

(** C9.  [force_function] raises nothing of its own.  Run against an engine
    whose calls may answer or raise: an exception that leaves
    [force_function] is one an entry point of the engine raised; no result
    at all means the [while] loop of the recovery is still running when the
    fuel is used up; so when the engine only answers, whatever it answers,
    [force_function] hands back a boolean or is still in that loop, and the
    failure of a repair is never an exception. *)
Theorem force_function_never_raises
        (E : Raising.Engine) (fuel : nat) (addr : Z) (w : Raising.World E) :
  (forall e w',
     Raising.force_function E fuel addr w = Some (Raises e, w') ->
     Raising.engine_raises E e) /\
  (Raising.force_function E fuel addr w = None ->
   exists w1,
     Raising._fix_unrecognized_function_insns E fuel addr w1 = None) /\
  ((forall e, ~ Raising.engine_raises E e) ->
   (exists b w',
      Raising.force_function E fuel addr w = Some (Returns b, w')) \/
   (exists w1,
      Raising._fix_unrecognized_function_insns E fuel addr w1 = None)).
Proof.
  pose proof (passes_on_force_function E fuel addr w) as Hraise.
  pose proof (stuck_force_function E fuel addr w) as Hstuck.
  split; [exact Hraise|]. split; [exact Hstuck|].
  intros Hquiet.
  destruct (Raising.force_function E fuel addr w) as [[[b | e] w']|].
  - left. exists b, w'. reflexivity.
  - exfalso. exact (Hquiet e (Hraise e w' eq_refl)).
  - right. apply Hstuck. reflexivity.
Qed.

(** C9 on the small table: when the engine raises ValueError from
    [add_func(105)] the error comes out as raised; when it only answers,
    the failed repair comes out as False. *)
Lemma force_function_never_raises_witness :
  (Raising.force_function FaultyDB 1 105
     (Raising.mkWorld (E:=FaultyDB) (mkMini A_long true) []) =
   Some (Raises ValueError,
         Raising.mkWorld (E:=FaultyDB) (mkMini A_long true)
           [FindFuncEnd 105; RemoveFchunk 105 105; AddFunc 105]) /\
   Raising.engine_raises FaultyDB ValueError) /\
  ((forall e, ~ Raising.engine_raises (answering MiniDB) e) /\
   ((exists b w',
       Raising.force_function (answering MiniDB) 1 105
         (raising_world (mkWorld (E:=MiniDB) (mkMini A_long true) []))
       = Some (Returns b, w')) \/
    (exists w1,
       Raising._fix_unrecognized_function_insns (answering MiniDB) 1 105 w1
       = None))).
Proof.
  split.
  - split; [reflexivity|].
    apply (proj1 (force_function_never_raises FaultyDB 1 105
                    (Raising.mkWorld (E:=FaultyDB) (mkMini A_long true) []))
             ValueError
             (Raising.mkWorld (E:=FaultyDB) (mkMini A_long true)
                [FindFuncEnd 105; RemoveFchunk 105 105; AddFunc 105])).
    reflexivity.
  - split; [exact (answering_never_raises MiniDB)|].
    apply (proj2 (proj2 (force_function_never_raises (answering MiniDB) 1 105
                           (raising_world
                              (mkWorld (E:=MiniDB) (mkMini A_long true) []))))).
    exact (answering_never_raises MiniDB).
Defined.

Example answering_run_is_false :
  Raising.force_function (answering MiniDB) 1 105
    (raising_world (mkWorld (E:=MiniDB) (mkMini A_long true) [])) =
  Some (Returns false,
        raising_world
          (mkWorld (E:=MiniDB) (mkMini B_only true)
             [FindFuncEnd 105; RemoveFchunk 105 105; AddFunc 105; DelFunc 100;
              AddFunc 105; AddFunc 100; DelFunc 100; AddFunc 100])).
Proof. reflexivity. Qed.

(** ** A run on the engine where undefining takes a function with it *)

